(** * Sudoku-AC-3: a shallow embedding of [sudoku_ac3.py]

    The development follows the Python source function by function:
    the [CSP] class, [parse_sudoku], [AC3], [Revise], [is_solved],
    [select_unassigned_variable], [backtrack], [print_solution] and
    [main].  Dictionaries are finite maps, Python sets of values are
    finite sets, failing dictionary lookups raise [KeyError], and the
    objects that the search clones and mutates live in an explicit
    store. *)

From Stdlib Require Import Ascii String.
From stdpp Require Import base gmap sets list strings sorting pretty.

Local Open Scope string_scope.
Local Open Scope list_scope.
Local Open Scope nat_scope.

(** ** Python values and control effects *)

(** Variables are dictionary keys (for Sudoku: ["A1"] .. ["I9"]) and
    domain values are Python strings (for Sudoku: the one-character
    strings ["1"] .. ["9"]). *)
Abbreviation Var := string (only parsing).
Abbreviation Value := string (only parsing).

Inductive exn : Type :=
| KeyError (k : string)
| ValueError (msg : string)
| StopIteration
| Dangling (r : nat).

(** The outcome of running a piece of Python: a returned value, a raised
    exception, or exhaustion of the step budget of a loop. *)
Inductive res (A : Type) : Type :=
| Ret (a : A)
| Raise (e : exn)
| OutOfFuel.
Arguments Ret {A} a.
Arguments Raise {A} e.
Arguments OutOfFuel {A}.

Global Instance res_ret : MRet res := λ A a, Ret a.

Global Instance res_bind : MBind res := λ A B k m,
  match m with
  | Ret a => k a
  | Raise e => Raise e
  | OutOfFuel => OutOfFuel
  end.

(** [set(s)] on a string: the set of its characters, each a
    one-character string. *)
Definition py_set_of_str (s : string) : gset Value :=
  list_to_set ((λ a, String a EmptyString) <$> list_ascii_of_string s).

(** [sorted(D)] on a set of strings: ascending in Python's string order,
    which compares code points lexicographically.  The elements of a set
    are pairwise distinct, so the sorted list does not depend on the
    sorting algorithm. *)
Definition str_le (a b : string) : Prop := String.leb a b = true.

Global Instance str_le_dec (a b : string) : Decision (str_le a b).
Proof. unfold str_le. apply _. Defined.

Definition py_sorted (D : gset Value) : list Value :=
  merge_sort str_le (elements D).

(** [min(l, key=key, default=None)]: the first element whose key is
    minimal (a later element replaces the current best only when its key
    is strictly smaller). *)
Fixpoint py_min_from {A : Type} (key : A → nat) (best : A) (l : list A) : A :=
  match l with
  | [] => best
  | x :: l' => py_min_from key (if decide (key x < key best) then x else best) l'
  end.

Definition py_min {A : Type} (key : A → nat) (l : list A) : option A :=
  match l with
  | [] => None
  | x :: l' => Some (py_min_from key x l')
  end.

(** ** The constraint model: [class CSP] *)

(** [neighbors] maps a variable to a Python set of variables.  The order
    in which a Python set is iterated is not fixed by the language, and
    [AC3] fills its queue in that order, so a neighbour set is carried
    as the list of its elements in iteration order. *)
Record CSP : Type := mkCSP {
  variables : list Var;
  domains : gmap Var (gset Value);
  neighbors : gmap Var (list Var)
}.

(** [csp.domains[x] = D] *)
Definition set_domain (c : CSP) (x : Var) (D : gset Value) : CSP :=
  mkCSP (variables c) (<[x := D]> (domains c)) (neighbors c).

(** ** [Revise] *)

(** [any(y != x for y in Dj)] *)
Definition has_support (Dj : gset Value) (x : Value) : Prop :=
  set_Exists (λ y, y ≠ x) Dj.

Global Instance has_support_dec Dj x : Decision (has_support Dj x).
Proof. unfold has_support. apply _. Defined.

(** The loop over [csp.domains[xi]] looks [csp.domains[xj]] up once per
    value [x], so a missing [xj] raises only when the domain of [xi] is
    non-empty.  The result pairs the returned flag with the state of the
    model after the call. *)
Definition Revise (c : CSP) (xi xj : Var) : res bool * CSP :=
  match domains c !! xi with
  | None => (Raise (KeyError xi), c)
  | Some Di =>
      if decide (Di = ∅) then (Ret false, c)
      else match domains c !! xj with
           | None => (Raise (KeyError xj), c)
           | Some Dj =>
               let to_remove := filter (λ x, ¬ has_support Dj x) Di in
               if decide (to_remove = ∅) then (Ret false, c)
               else (Ret true, set_domain c xi (Di ∖ to_remove))
           end
  end.

(** ** [AC3] *)

Abbreviation arc := (Var * Var)%type (only parsing).

(** The two nested loops that fill the queue with every arc. *)
Fixpoint all_arcs (c : CSP) (vars : list Var) : res (list arc) :=
  match vars with
  | [] => Ret []
  | xi :: vars' =>
      match neighbors c !! xi with
      | None => Raise (KeyError xi)
      | Some ns =>
          q ← all_arcs c vars';
          Ret (((λ xj, (xi, xj)) <$> (ns : list Var)) ++ q)
      end
  end.

(** The [while queue] loop; [fuel] bounds the number of iterations. *)
Fixpoint AC3_loop (fuel : nat) (queue : list arc) (c : CSP) {struct fuel}
  : res bool * CSP :=
  match queue with
  | [] => (Ret true, c)
  | (xi, xj) :: queue' =>
      match fuel with
      | 0 => (OutOfFuel, c)
      | S fuel' =>
          match Revise c xi xj with
          | (Ret true, c') =>
              match domains c' !! xi with
              | None => (Raise (KeyError xi), c')
              | Some Di =>
                  if decide (Di = ∅) then (Ret false, c')
                  else match neighbors c' !! xi with
                       | None => (Raise (KeyError xi), c')
                       | Some ns =>
                           AC3_loop fuel'
                             (queue' ++ ((λ xk, (xk, xi)) <$> filter (λ xk, xk ≠ xj) (ns : list Var)))
                             c'
                       end
              end
          | (Ret false, c') => AC3_loop fuel' queue' c'
          | (Raise e, c') => (Raise e, c')
          | (OutOfFuel, c') => (OutOfFuel, c')
          end
      end
  end.

Definition AC3_fuel (fuel : nat) (c : CSP) : res bool * CSP :=
  match all_arcs c (variables c) with
  | Ret queue => AC3_loop fuel queue c
  | Raise e => (Raise e, c)
  | OutOfFuel => (OutOfFuel, c)
  end.

(** A budget that the loop never exhausts: every iteration either
    shortens the queue or removes a value from a domain, after which at
    most [max_degree] arcs are appended. *)
Definition value_weight (v : Value) : nat := String.length v `max` 1.

Definition dom_weight (D : gset Value) : nat :=
  sum_list (value_weight <$> elements D).

Definition total_weight (c : CSP) : nat :=
  sum_list ((λ kv, dom_weight kv.2) <$> map_to_list (domains c)).

Definition max_degree (c : CSP) : nat :=
  max_list ((λ kv, length kv.2) <$> map_to_list (neighbors c)).

Definition num_arcs (c : CSP) : nat :=
  sum_list ((λ xi, length (default [] (neighbors c !! xi))) <$> variables c).

Definition AC3_bound (c : CSP) : nat :=
  num_arcs c + max_degree c * total_weight c.

Definition AC3 (c : CSP) : res bool * CSP := AC3_fuel (AC3_bound c) c.

(** ** [is_solved] and [select_unassigned_variable] *)

(** [all(len(domain) == 1 for domain in csp.domains.values())]: the test
    ranges over every entry of the dictionary. *)
Definition is_solved (c : CSP) : bool :=
  bool_decide (map_Forall (λ _ D, size D = 1) (domains c)).

(** [len(csp.domains[v])], used as the key of [min]; the variables it is
    applied to have passed the filter, so the lookup succeeds. *)
Definition domain_size (c : CSP) (v : Var) : nat :=
  size (default ∅ (domains c !! v)).

(** [[v for v in csp.variables if len(csp.domains[v]) > 1]] *)
Fixpoint unassigned_variables (c : CSP) (vars : list Var) : res (list Var) :=
  match vars with
  | [] => Ret []
  | v :: vars' =>
      match domains c !! v with
      | None => Raise (KeyError v)
      | Some D =>
          l ← unassigned_variables c vars';
          Ret (if decide (1 < size D) then v :: l else l)
      end
  end.

Definition select_unassigned_variable (c : CSP) : res (option Var) :=
  unassigned ← unassigned_variables c (variables c);
  Ret (py_min (domain_size c) unassigned).

(** ** The store of model objects *)

(** [AC3] mutates the object it is given and [backtrack] clones it with
    [copy.deepcopy], so models are kept in a store and passed around by
    reference.  A reference is an index into the store; a fresh object
    is appended at the end. *)
Abbreviation loc := nat (only parsing).
Abbreviation heap := (list CSP) (only parsing).

(** [AC3(csp)] on a reference: the object is updated in place, also when
    the call ends in an exception. *)
Definition AC3_ref (r : loc) (h : heap) : res bool * heap :=
  match h !! r with
  | None => (Raise (Dangling r), h)
  | Some c => let '(b, c') := AC3 c in (b, <[r := c']> h)
  end.

Section Backtracking.

(** [copy.deepcopy] rebuilds every set of the model, and a rebuilt set
    may be iterated in another order than the original.  [set_order]
    stands for the order in which a set built from the given elements is
    iterated; nothing is assumed about it here. *)
Variable set_order : list Var → list Var.

Definition clone (c : CSP) : CSP :=
  mkCSP (variables c) (domains c) (set_order <$> neighbors c).

Definition deepcopy (r : loc) (h : heap) : res loc * heap :=
  match h !! r with
  | None => (Raise (Dangling r), h)
  | Some c => (Ret (length h), h ++ [clone c])
  end.

(** ** [backtrack] *)

(** The [for value in sorted(csp.domains[var])] loop; [rec] is the
    recursive call. *)
Fixpoint try_values (rec : loc → heap → res (option loc) * heap)
    (csp : loc) (var : Var) (vals : list Value) (h : heap)
  : res (option loc) * heap :=
  match vals with
  | [] => (Ret None, h)
  | value :: vals' =>
      match deepcopy csp h with
      | (Ret new_csp, h1) =>
          let h2 := alter (λ c, set_domain c var (py_set_of_str value)) new_csp h1 in
          match AC3_ref new_csp h2 with
          | (Ret true, h3) =>
              match rec new_csp h3 with
              | (Ret (Some result), h4) => (Ret (Some result), h4)
              | (Ret None, h4) => try_values rec csp var vals' h4
              | (Raise e, h4) => (Raise e, h4)
              | (OutOfFuel, h4) => (OutOfFuel, h4)
              end
          | (Ret false, h3) => try_values rec csp var vals' h3
          | (Raise e, h3) => (Raise e, h3)
          | (OutOfFuel, h3) => (OutOfFuel, h3)
          end
      | (Raise e, h1) => (Raise e, h1)
      | (OutOfFuel, h1) => (OutOfFuel, h1)
      end
  end.

(** The result is [Some r] for a returned model and [None] for [False];
    [fuel] bounds the depth of the recursion. *)
Fixpoint backtrack_fuel (fuel : nat) (csp : loc) (h : heap)
  : res (option loc) * heap :=
  match fuel with
  | 0 => (OutOfFuel, h)
  | S fuel' =>
      match h !! csp with
      | None => (Raise (Dangling csp), h)
      | Some c =>
          if is_solved c then (Ret (Some csp), h)
          else match select_unassigned_variable c with
               | Ret None => (Ret None, h)
               | Ret (Some var) =>
                   match domains c !! var with
                   | None => (Raise (KeyError var), h)
                   | Some D =>
                       try_values (backtrack_fuel fuel') csp var (py_sorted D) h
                   end
               | Raise e => (Raise e, h)
               | OutOfFuel => (OutOfFuel, h)
               end
      end
  end.

(** Every recursive call is on a model of smaller [total_weight], so
    this depth is never exhausted. *)
Definition backtrack_bound (c : CSP) : nat := S (total_weight c).

Definition backtrack (csp : loc) (h : heap) : res (option loc) * heap :=
  match h !! csp with
  | None => (Raise (Dangling csp), h)
  | Some c => backtrack_fuel (backtrack_bound c) csp h
  end.

End Backtracking.

(** ** [parse_sudoku] *)

(** The characters of a string, as one-character strings: what a Python
    [for] loop over a string yields. *)
Definition str_chars (s : string) : list string :=
  (λ a, String a EmptyString) <$> list_ascii_of_string s.

Definition rows : list string := str_chars "ABCDEFGHI".
Definition cols : list string := str_chars "123456789".

(** [str.isspace] on a character below 256. *)
Definition py_isspace (a : ascii) : bool :=
  let n := nat_of_ascii a in
  ((9 <=? n) && (n <=? 13)) || ((28 <=? n) && (n <=? 32))
  || (n =? 133) || (n =? 160).

(** [s.strip()] *)
Definition py_strip (s : string) : string :=
  let drop := fix drop (l : list ascii) : list ascii :=
    match l with
    | [] => []
    | a :: l' => if py_isspace a then drop l' else l
    end in
  string_of_list_ascii (rev (drop (rev (drop (list_ascii_of_string s))))).

(** [s.split()]: maximal runs of non-space characters.  [cur] is the run
    being read, most recent character first. *)
Fixpoint py_split_from (cur : list ascii) (s : list ascii) : list string :=
  match s with
  | [] => match cur with [] => [] | _ => [string_of_list_ascii (rev cur)] end
  | a :: s' =>
      if py_isspace a then
        match cur with
        | [] => py_split_from [] s'
        | _ => string_of_list_ascii (rev cur) :: py_split_from [] s'
        end
      else py_split_from (a :: cur) s'
  end.

Definition py_split (s : string) : list string :=
  py_split_from [] (list_ascii_of_string s).

(** [s in t] on strings: [s] occurs in [t] as a substring. *)
Fixpoint py_in (s t : string) : bool :=
  if String.prefix s t then true
  else match t with
       | EmptyString => false
       | String _ t' => py_in s t'
       end.

(** The body of the loop over the tokens of one line. *)
Definition parse_cell (doms : gmap Var (gset Value)) (var : Var) (val : string)
  : res (gmap Var (gset Value)) :=
  if py_in val "123456789" then Ret (<[var := py_set_of_str val]> doms)
  else if py_in val ".0" then Ret doms
  else Raise (ValueError ("Invalid character '" +:+ val +:+ "' in input.")).

Fixpoint parse_parts (row : string) (j : nat) (parts : list string)
    (doms : gmap Var (gset Value)) : res (gmap Var (gset Value)) :=
  match parts with
  | [] => Ret doms
  | val :: parts' =>
      doms' ← parse_cell doms (row +:+ default "" (cols !! j)) val;
      parse_parts row (S j) parts' doms'
  end.

Fixpoint parse_lines (i : nat) (lines : list string)
    (doms : gmap Var (gset Value)) : res (gmap Var (gset Value)) :=
  match lines with
  | [] => Ret doms
  | line :: lines' =>
      let parts := py_split (py_strip line) in
      if decide (length parts ≠ 9) then
        Raise (ValueError ("Line " +:+ pretty (i + 1) +:+ " must have exactly 9 characters."))
      else
        doms' ← parse_parts (default "" (rows !! i)) 0 parts doms;
        parse_lines (S i) lines' doms'
  end.

(** The row, column and box neighbours of a cell, in the order in which
    the source concatenates them. *)
Definition ord (a : ascii) : nat := nat_of_ascii a.
Definition chr (n : nat) : string := String (ascii_of_nat n) EmptyString.

Definition cell_neighbors (var : Var) : list Var :=
  match var with
  | String row (String col _) =>
      let row_vars :=
        filter (λ v, v ≠ var) ((λ c_j, String row c_j) <$> cols) in
      let col_vars :=
        filter (λ v, v ≠ var) ((λ r_j, r_j +:+ String col EmptyString) <$> rows) in
      let box_row_start := ((ord row - ord "A") / 3) * 3 + ord "A" in
      let box_col_start := ((ord col - ord "0" - 1) / 3) * 3 + 1 in
      let box_vars :=
        filter (λ v, v ≠ var)
          (r ← seq box_row_start 3;
           (λ c, chr r +:+ pretty c) <$> seq box_col_start 3) in
      row_vars ++ col_vars ++ box_vars
  | _ => []
  end.

Section Driver.

Variable set_order : list Var → list Var.

(** [lines] is what [f.readlines()] returns. *)
Definition parse_sudoku (lines : list string) : res CSP :=
  let variables := r ← rows; (λ c, r +:+ c) <$> cols in
  let domains : gmap Var (gset Value) :=
    list_to_map ((λ var, (var, py_set_of_str "123456789")) <$> variables) in
  if decide (length lines ≠ 9) then
    Raise (ValueError "Input file must have exactly 9 lines.")
  else
    domains' ← parse_lines 0 lines domains;
    let neighbors : gmap Var (list Var) :=
      list_to_map
        ((λ var, (var, set_order (remove_dups (cell_neighbors var)))) <$> variables) in
    Ret (mkCSP variables domains' neighbors).

(** ** [print_solution] and [main] *)

(** The output is the list of the strings handed to [print] by [main]
    and [print_solution]; the tracing lines of [AC3], [Revise] and
    [backtrack] are left out. *)
Definition nl : string := String (ascii_of_nat 10) EmptyString.

(** [next(iter(csp.domains[k]))] *)
Definition first_value (c : CSP) (k : Var) : res Value :=
  match domains c !! k with
  | None => Raise (KeyError k)
  | Some D =>
      match elements D with
      | [] => Raise StopIteration
      | x :: _ => Ret x
      end
  end.

Definition print_solution (c : CSP) : res (list string) :=
  if negb (is_solved c) then Ret ["No solution found."]
  else mapM (λ r, row ← mapM (λ col, first_value c (r +:+ col)) cols;
                  Ret (String.concat " " row)) rows.

(** The part of [main] that follows [parse_sudoku]. *)
Definition main_core (c : CSP) : res (list string) :=
  let csp := 0 in
  let h := [c] in
  let out := ["Parsed Sudoku puzzle and initialized CSP.";
              nl +:+ "Starting AC-3 algorithm..."] in
  match AC3_ref csp h with
  | (Ret false, _) => Ret (out ++ ["Sudoku puzzle has no solution."])
  | (Ret true, h1) =>
      match h1 !! csp with
      | None => Raise (Dangling csp)
      | Some revised_csp =>
          if is_solved revised_csp then
            grid ← print_solution revised_csp;
            Ret (out ++ [nl +:+ "Sudoku puzzle is solved by AC-3."] ++ grid)
          else
            let out := out ++ [nl +:+ "AC-3 completed. Puzzle is not fully solved. Applying backtracking..."] in
            match backtrack set_order csp h1 with
            | (Ret (Some solution), h2) =>
                match h2 !! solution with
                | None => Raise (Dangling solution)
                | Some s =>
                    grid ← print_solution s;
                    Ret (out ++ [nl +:+ "Sudoku puzzle solved with backtracking:"] ++ grid)
                end
            | (Ret None, _) => Ret (out ++ ["Sudoku puzzle has no solution."])
            | (Raise e, _) => Raise e
            | (OutOfFuel, _) => OutOfFuel
            end
      end
  | (Raise e, _) => Raise e
  | (OutOfFuel, _) => OutOfFuel
  end.

Definition main (lines : list string) : res (list string) :=
  csp ← parse_sudoku lines;
  main_core csp.


End Driver.

(** ** The search as a function on model values *)

(** [backtrack] without the store: the model handed to a recursive call
    is the value that [AC3] left in the clone.  [backtrack_fuel] is shown
    below to compute exactly this on the objects of the store. *)
Section ValueSemantics.

Variable set_order : list Var → list Var.

Fixpoint try_values_val (rec : CSP → res (option CSP))
    (c : CSP) (var : Var) (vals : list Value) : res (option CSP) :=
  match vals with
  | [] => Ret None
  | value :: vals' =>
      match AC3 (set_domain (clone set_order c) var (py_set_of_str value)) with
      | (Ret true, c') =>
          match rec c' with
          | Ret (Some result) => Ret (Some result)
          | Ret None => try_values_val rec c var vals'
          | Raise e => Raise e
          | OutOfFuel => OutOfFuel
          end
      | (Ret false, _) => try_values_val rec c var vals'
      | (Raise e, _) => Raise e
      | (OutOfFuel, _) => OutOfFuel
      end
  end.

Fixpoint search_fuel (fuel : nat) (c : CSP) : res (option CSP) :=
  match fuel with
  | 0 => OutOfFuel
  | S fuel' =>
      if is_solved c then Ret (Some c)
      else match select_unassigned_variable c with
           | Ret None => Ret None
           | Ret (Some var) =>
               match domains c !! var with
               | None => Raise (KeyError var)
               | Some D => try_values_val (search_fuel fuel') c var (py_sorted D)
               end
           | Raise e => Raise e
           | OutOfFuel => OutOfFuel
           end
  end.

End ValueSemantics.

(** The search that [backtrack] runs on a model, with its budget. *)
Definition search_result (set_order : list Var → list Var) (c : CSP)
  : res (option CSP) :=
  search_fuel set_order (backtrack_bound c) c.

(** The result of a search in the store [h], with the returned reference
    replaced by the model it points to. *)
Definition deref (h : heap) (r : res (option loc)) : res (option CSP) :=
  match r with
  | Ret (Some s) =>
      match h !! s with
      | Some c => Ret (Some c)
      | None => Raise (Dangling s)
      end
  | Ret None => Ret None
  | Raise e => Raise e
  | OutOfFuel => OutOfFuel
  end.

(** ** Properties of models *)

(** The domain and the neighbour list of a variable, empty where the
    dictionary has no entry. *)
Definition dom_of (c : CSP) (x : Var) : gset Value := default ∅ (domains c !! x).
Definition nbrs_of (c : CSP) (x : Var) : list Var := default [] (neighbors c !! x).

(** Every variable has a domain and a neighbour set, and neighbour sets
    mention only variables: the models on which no lookup fails. *)
Definition wf_csp (c : CSP) : Prop :=
  Forall (λ x, is_Some (domains c !! x) ∧ is_Some (neighbors c !! x)) (variables c)
  ∧ map_Forall (λ _ ns, Forall (λ y, y ∈ variables c) ns) (neighbors c).

(** If [xj] is a neighbour of [xi] then [xi] is a neighbour of [xj]. *)
Definition symmetric_neighbors (c : CSP) : Prop :=
  map_Forall (λ xi ns, Forall (λ xj, xi ∈ nbrs_of c xj) ns) (neighbors c).

(** The arc [(xi, xj)] is consistent: every value of [xi] has a
    different value in the domain of [xj]. *)
Definition arc_ok (c : CSP) (xi xj : Var) : Prop :=
  set_Forall (λ x, has_support (dom_of c xj) x) (dom_of c xi).

Definition arc_consistent (c : CSP) : Prop :=
  Forall (λ xi, Forall (λ xj, arc_ok c xi xj) (nbrs_of c xi)) (variables c).

(** Every domain of [c'] is a subset of the domain that the same
    variable has in [c]. *)
Definition domains_shrink (c c' : CSP) : Prop :=
  map_Forall (λ x D', is_Some (domains c !! x) ∧ D' ⊆ dom_of c x) (domains c').

(** The frame of a model: its variables, its neighbour sets and the keys
    of its domain dictionary. *)
Definition same_frame (c c' : CSP) : Prop :=
  variables c' = variables c ∧ neighbors c' = neighbors c
  ∧ ∀ x, is_Some (domains c' !! x) ↔ is_Some (domains c !! x).

(** Every variable has exactly one value left. *)
Definition fully_assigned (c : CSP) : Prop :=
  Forall (λ x, size (dom_of c x) = 1 ∧ is_Some (domains c !! x)) (variables c).


(** All values of all domains are one-character strings. *)
Definition single_char_values (c : CSP) : Prop :=
  map_Forall (λ _ D, set_Forall (λ v, String.length v = 1) D) (domains c).

(** Two models with the same variables, the same domains and the same
    neighbour sets, listed in possibly different orders. *)
Definition csp_equiv (c1 c2 : CSP) : Prop :=
  variables c1 = variables c2
  ∧ domains c1 = domains c2
  ∧ (list_to_set <$> neighbors c1 : gmap Var (gset Var))
    = (list_to_set <$> neighbors c2).

(** Two searches agree: both fail, or both return equivalent models. *)
Definition search_equiv (r1 r2 : res (option CSP)) : Prop :=
  match r1, r2 with
  | Ret (Some s1), Ret (Some s2) => csp_equiv s1 s2
  | Ret None, Ret None => True
  | OutOfFuel, OutOfFuel => True
  | _, _ => False
  end.

(** An iteration order lists exactly the elements of the set. *)
Definition is_set_order (set_order : list Var → list Var) : Prop :=
  ∀ l x, x ∈ set_order l ↔ x ∈ l.

(** ** [Revise] as the specification words it *)

(** The specification's [Revise] for a model that stores a predicate
    [satisfies]: keep the values of [Di] for which some value of [Dj]
    satisfies the predicate; the arc counts as revised when a value was
    removed. *)
Definition Revise_spec (satisfies : Value → Value → bool)
    (Di Dj : gset Value) : bool * gset Value :=
  let Di' := filter (λ x, ∃ y, y ∈ Dj ∧ satisfies x y = true) Di in
  (bool_decide (Di' ≠ Di), Di').

Definition values_differ (x y : Value) : bool := bool_decide (x ≠ y).

(** Decision procedures for the properties above. *)
Global Instance wf_csp_dec c : Decision (wf_csp c).
Proof. unfold wf_csp. apply _. Defined.
Global Instance symmetric_neighbors_dec c : Decision (symmetric_neighbors c).
Proof. unfold symmetric_neighbors. apply _. Defined.
Global Instance arc_ok_dec c xi xj : Decision (arc_ok c xi xj).
Proof. unfold arc_ok. apply _. Defined.
Global Instance arc_consistent_dec c : Decision (arc_consistent c).
Proof. unfold arc_consistent. apply _. Defined.
Global Instance domains_shrink_dec c c' : Decision (domains_shrink c c').
Proof. unfold domains_shrink. apply _. Defined.
Global Instance fully_assigned_dec c : Decision (fully_assigned c).
Proof. unfold fully_assigned. apply _. Defined.
Global Instance single_char_values_dec c : Decision (single_char_values c).
Proof. unfold single_char_values. apply _. Defined.
Global Instance csp_equiv_dec c1 c2 : Decision (csp_equiv c1 c2).
Proof. unfold csp_equiv. apply _. Defined.

(** ** Example models *)

(** Two neighbours; propagation solves the model. *)
Definition ex_two : CSP :=
  mkCSP ["a"; "b"]
        {[ "a" := {["1"; "2"]}; "b" := {["1"]} ]}
        {[ "a" := ["b"]; "b" := ["a"] ]}.

Definition ex_conflict : CSP :=
  mkCSP ["a"; "b"]
        {[ "a" := {["1"]}; "b" := {["1"]} ]}
        {[ "a" := ["b"]; "b" := ["a"] ]}.

Definition ex_triangle (Da Db Dc : gset Value) : CSP :=
  mkCSP ["a"; "b"; "c"]
        {[ "a" := Da; "b" := Db; "c" := Dc ]}
        {[ "a" := ["b"; "c"]; "b" := ["a"; "c"]; "c" := ["a"; "b"] ]}.

Definition ex_search : CSP := ex_triangle {["1"; "2"]} {["1"; "2"]} {["1"; "2"; "3"]}.
Definition ex_pigeon : CSP := ex_triangle {["1"; "2"]} {["1"; "2"]} {["1"; "2"]}.

Definition ex_multichar : CSP :=
  mkCSP ["a"] {[ "a" := {["ab"; "cd"]} ]} {[ "a" := [] ]}.

Definition always_satisfied (x y : Value) : bool := true.

(** Text files as [readlines] returns them: every line ends in a newline. *)
Definition file_lines (rows : list string) : list string := (λ l, l +:+ nl) <$> rows.

(** A grid with the clue [5] twice in row [A]. *)
Definition puzzle_row_clash : list string := file_lines
  ["5 5 . . 7 . . . ."; "6 . . 1 9 5 . . ."; ". 9 8 . . . . 6 .";
   "8 . . . 6 . . . 3"; "4 . . 8 . 3 . . 1"; "7 . . . 2 . . . 6";
   ". 6 . . . . 2 8 ."; ". . . 4 1 9 . . 5"; ". . . . 8 . . 7 9"].

(** A grid whose first token is the two-character string [12]. *)
Definition puzzle_two_char_token : list string := file_lines
  ["12 3 . . 7 . . . ."; "6 . . 1 9 5 . . ."; ". 9 8 . . . . 6 .";
   "8 . . . 6 . . . 3"; "4 . . 8 . 3 . . 1"; "7 . . . 2 . . . 6";
   ". 6 . . . . 2 8 ."; ". . . 4 1 9 . . 5"; ". . . . 8 . . 7 9"].

(** ** Solutions *)

(** An assignment [σ] solves a model: it picks a value from every domain
    and gives different values to a variable and each of its
    neighbours. *)
Definition is_solution (σ : Var → Value) (c : CSP) : Prop :=
  map_Forall (λ x D, σ x ∈ D) (domains c)
  ∧ Forall (λ xi, Forall (λ xj, σ xi ≠ σ xj) (nbrs_of c xi)) (variables c).

Global Instance is_solution_dec σ c : Decision (is_solution σ c).
Proof. unfold is_solution. apply _. Defined.

(** The model in which every domain of [c] is cut down to the value
    that [σ] assigns. *)
Definition assignment_model (σ : Var → Value) (c : CSP) : CSP :=
  mkCSP (variables c) (map_imap (λ x _, Some {[σ x]}) (domains c)) (neighbors c).

(** The domain dictionary has no entry for anything but a variable. *)
Definition keys_are_variables (c : CSP) : Prop :=
  map_Forall (λ x _, x ∈ variables c) (domains c).

Global Instance keys_are_variables_dec c : Decision (keys_are_variables c).
Proof. unfold keys_are_variables. apply _. Defined.

(** Every domain of [c'] lies within the domain of the same variable
    in [c]. *)
Definition below (c' c : CSP) : Prop := ∀ x, dom_of c' x ⊆ dom_of c x.

(** What the models of a search tree share with the root [c0]: the
    variables, the keys of the domain dictionary and the neighbour sets;
    they are well formed with symmetric neighbours. *)
Definition search_inv (c0 c : CSP) : Prop :=
  variables c = variables c0
  ∧ (∀ x, is_Some (domains c !! x) ↔ is_Some (domains c0 !! x))
  ∧ (∀ x y, y ∈ nbrs_of c x ↔ y ∈ nbrs_of c0 x)
  ∧ wf_csp c ∧ symmetric_neighbors c.

(** The assignment that a domain dictionary with one value per key
    stands for: the first value of the domain of [x]. *)
Definition assignment_of (d : gmap Var (gset Value)) (x : Var) : Value :=
  default "" (head (elements (default ∅ (d !! x)))).

(** ** The Sudoku grid *)

(** The cell in row [i] and column [j], counted from 0. *)
Definition cell (i j : nat) : Var := default "" (rows !! i) +:+ default "" (cols !! j).

(** The 81 cells in the order of [variables]. *)
Definition cells : list Var := r ← rows; (λ c, r +:+ c) <$> cols.

(** Two different cells share a row, a column or a 3x3 box. *)
Definition same_unit (i j i' j' : nat) : Prop :=
  (i, j) ≠ (i', j') ∧ (i = i' ∨ j = j' ∨ (i / 3 = i' / 3 ∧ j / 3 = j' / 3)).

Global Instance same_unit_dec i j i' j' : Decision (same_unit i j i' j').
Proof. unfold same_unit. apply _. Defined.

(** The two dictionaries that [parse_sudoku] builds before and after
    reading the file. *)
Definition initial_domains : gmap Var (gset Value) :=
  list_to_map ((λ var, (var, py_set_of_str "123456789")) <$> cells).

Definition sudoku_neighbors (set_order : list Var → list Var) : gmap Var (list Var) :=
  list_to_map ((λ var, (var, set_order (remove_dups (cell_neighbors var)))) <$> cells).

(** The domain that [parse_sudoku] gives a cell for the token [tok]. *)
Definition token_domain (tok : string) : gset Value :=
  if py_in tok "123456789" then py_set_of_str tok else py_set_of_str "123456789".

(** The nine lines that [print_solution] prints for the assignment that
    the domain dictionary [d] stands for. *)
Definition grid_of (d : gmap Var (gset Value)) : list string :=
  (λ r, String.concat " " ((λ col, assignment_of d (r +:+ col)) <$> cols)) <$> rows.

(** A token that the loader accepts. *)
Definition accepted_token (tok : string) : Prop :=
  py_in tok "123456789" = true ∨ py_in tok ".0" = true.

Global Instance accepted_token_dec tok : Decision (accepted_token tok).
Proof. unfold accepted_token. apply _. Defined.

(** A file that the loader accepts: nine lines of nine accepted tokens. *)
Definition accepted_file (lines : list string) : Prop :=
  length lines = 9
  ∧ Forall (λ line, length (py_split (py_strip line)) = 9
                    ∧ Forall accepted_token (py_split (py_strip line))) lines.

Global Instance accepted_file_dec lines : Decision (accepted_file lines).
Proof. unfold accepted_file. apply _. Defined.

(** The model that the loader builds from [lines], when it builds one. *)
Definition parsed (lines : list string) : CSP :=
  match parse_sudoku id lines with
  | Ret c => c
  | _ => mkCSP [] ∅ ∅
  end.

(** A grid that propagation alone solves. *)
Definition puzzle_easy : list string := file_lines
  ["5 3 . . 7 . . . ."; "6 . . 1 9 5 . . ."; ". 9 8 . . . . 6 .";
   "8 . . . 6 . . . 3"; "4 . . 8 . 3 . . 1"; "7 . . . 2 . . . 6";
   ". 6 . . . . 2 8 ."; ". . . 4 1 9 . . 5"; ". . . . 8 . . 7 9"].

(** A model whose second variable has no neighbour set. *)
Definition ex_no_neighbors : CSP :=
  mkCSP ["a"; "b"]
        {[ "a" := {["1"; "2"]}; "b" := {["1"]} ]}
        {[ "a" := ["b"] ]}.

(** A model with an empty domain: a dead end of the search. *)
Definition ex_dead_end : CSP :=
  mkCSP ["a"; "b"]
        {[ "a" := ∅; "b" := {["1"]} ]}
        {[ "a" := ["b"]; "b" := ["a"] ]}.


(** * Proofs *)

(** ** Sums and weights *)

Lemma sum_list_perm (l1 l2 : list nat) : l1 ≡ₚ l2 → sum_list l1 = sum_list l2.
Proof. induction 1; simpl; lia. Qed.

Lemma sum_list_append (l1 l2 : list nat) :
  sum_list (l1 ++ l2) = sum_list l1 + sum_list l2.
Proof. induction l1; simpl; lia. Qed.

Lemma value_weight_pos v : 1 ≤ value_weight v.
Proof. unfold value_weight. lia. Qed.

Lemma dom_weight_empty : dom_weight ∅ = 0.
Proof. unfold dom_weight. by rewrite elements_empty. Qed.

Lemma dom_weight_disj_union (X Y : gset string) :
  X ## Y → dom_weight (X ∪ Y) = dom_weight X + dom_weight Y.
Proof.
  intros Hd. unfold dom_weight.
  rewrite (sum_list_perm _ (value_weight <$> (elements X ++ elements Y))).
  - rewrite fmap_app, sum_list_append. done.
  - apply fmap_Permutation. by apply elements_disj_union.
Qed.

Lemma dom_weight_singleton v : dom_weight {[v]} = value_weight v.
Proof. unfold dom_weight. rewrite elements_singleton. simpl. lia. Qed.

Lemma dom_weight_split (D D' : gset string) :
  D' ⊆ D → dom_weight D = dom_weight D' + dom_weight (D ∖ D').
Proof.
  intros Hs. rewrite <- dom_weight_disj_union by set_solver.
  f_equal. apply set_eq. intros x. rewrite elem_of_union, elem_of_difference.
  destruct (decide (x ∈ D')); set_solver.
Qed.

Lemma dom_weight_mono (D D' : gset string) : D' ⊆ D → dom_weight D' ≤ dom_weight D.
Proof. intros Hs. rewrite (dom_weight_split D D' Hs). lia. Qed.

Lemma dom_weight_elem (D : gset string) v : v ∈ D → value_weight v ≤ dom_weight D.
Proof.
  intros Hv. rewrite <- dom_weight_singleton. apply dom_weight_mono. set_solver.
Qed.

Lemma dom_weight_strict (D D' : gset string) x :
  D' ⊆ D → x ∈ D → x ∉ D' → dom_weight D' < dom_weight D.
Proof.
  intros Hs Hx Hn. rewrite (dom_weight_split D D' Hs).
  assert (x ∈ D ∖ D') as Hd by set_solver.
  pose proof (dom_weight_elem (D ∖ D') x Hd) as Hw.
  pose proof (value_weight_pos x). lia.
Qed.

Lemma total_weight_insert c x D D' :
  domains c !! x = Some D →
  total_weight (set_domain c x D') + dom_weight D = total_weight c + dom_weight D'.
Proof.
  intros Hx. unfold total_weight, set_domain. simpl.
  rewrite <- (insert_delete_eq (domains c)).
  rewrite (sum_list_perm _ ((λ kv, dom_weight kv.2) <$> ((x, D') :: map_to_list (delete x (domains c))))).
  2:{ apply fmap_Permutation, map_to_list_insert, lookup_delete_eq. }
  rewrite (sum_list_perm ((λ kv, dom_weight kv.2) <$> map_to_list (domains c))
             ((λ kv, dom_weight kv.2) <$> ((x, D) :: map_to_list (delete x (domains c))))).
  2:{ apply fmap_Permutation. symmetry. by apply map_to_list_delete. }
  simpl. lia.
Qed.

Lemma max_degree_ge c x ns : neighbors c !! x = Some ns → length ns ≤ max_degree c.
Proof.
  intros Hx. unfold max_degree. apply max_list_elem_of_le.
  apply list_elem_of_fmap. exists (x, ns). split; [done|].
  by apply elem_of_map_to_list.
Qed.

(** ** [Revise] *)

Lemma to_remove_difference (Di Dj : gset string) :
  Di ∖ filter (λ x, ¬ has_support Dj x) Di = filter (λ x, has_support Dj x) Di.
Proof.
  apply set_eq. intros x. rewrite elem_of_difference, !elem_of_filter.
  destruct (decide (has_support Dj x)); tauto.
Qed.

(** The three ways in which a call of [Revise] ends. *)
Lemma Revise_inv c xi xj r c' :
  Revise c xi xj = (r, c') →
  (∃ e, r = Raise e ∧ c' = c)
  ∨ (r = Ret false ∧ c' = c ∧ arc_ok c xi xj)
  ∨ (∃ Di Dj, r = Ret true ∧ domains c !! xi = Some Di ∧ domains c !! xj = Some Dj
       ∧ c' = set_domain c xi (filter (λ x, has_support Dj x) Di)
       ∧ ∃ x, x ∈ Di ∧ ¬ has_support Dj x).
Proof.
  unfold Revise. intros H.
  destruct (domains c !! xi) as [Di|] eqn:Hi; [|left; simplify_eq; by eexists].
  destruct (decide (Di = ∅)) as [->|Hne].
  { right; left. simplify_eq. split_and!; try done.
    unfold arc_ok, dom_of. rewrite Hi. simpl. intros x Hx. set_solver. }
  destruct (domains c !! xj) as [Dj|] eqn:Hj; [|left; simplify_eq; by eexists].
  destruct (decide (filter (λ x, ¬ has_support Dj x) Di = ∅)) as [He|Hr].
  - right; left. simplify_eq. split_and!; try done.
    unfold arc_ok, dom_of. rewrite Hi, Hj. simpl. intros x Hx.
    destruct (decide (has_support Dj x)) as [|Hn]; [done|].
    assert (x ∈ filter (λ x, ¬ has_support Dj x) Di) as Hin by (apply elem_of_filter; done).
    rewrite He in Hin. set_solver.
  - right; right. simplify_eq. exists Di, Dj. split_and!; try done.
    + by rewrite to_remove_difference.
    + apply set_choose_L in Hr as [x Hx]. apply elem_of_filter in Hx as [? ?].
      by exists x.
Qed.

Lemma Revise_no_fuel c xi xj c' : Revise c xi xj ≠ (OutOfFuel, c').
Proof.
  intros H. apply Revise_inv in H as [(e & ? & ?)|[(? & ?)|(? & ? & ? & ?)]]; done.
Qed.

Lemma Revise_true_weight c xi xj c' :
  Revise c xi xj = (Ret true, c') →
  variables c' = variables c ∧ neighbors c' = neighbors c
  ∧ total_weight c' < total_weight c.
Proof.
  intros H. apply Revise_inv in H as [(e & ? & ?)|[(? & ?)|(Di & Dj & _ & Hi & Hj & -> & x & Hx & Hn)]];
    [done..|].
  split_and!; [done..|].
  pose proof (total_weight_insert c xi Di (filter (λ x, has_support Dj x) Di) Hi) as Hw.
  assert (dom_weight (filter (λ x, has_support Dj x) Di) < dom_weight Di); [|lia].
  apply (dom_weight_strict _ _ x); [|done|].
  - intros y Hy. by apply elem_of_filter in Hy as [_ ?].
  - intros Hy. by apply elem_of_filter in Hy as [? _].
Qed.

(** ** Termination of the [AC3] loop *)

Lemma AC3_loop_fuel_enough fuel : ∀ queue c,
  length queue + max_degree c * total_weight c ≤ fuel →
  (AC3_loop fuel queue c).1 ≠ OutOfFuel.
Proof.
  induction fuel as [|fuel IH]; intros queue c Hle.
  - destruct queue as [|[xi xj] queue]; simpl in *; [done|lia].
  - destruct queue as [|[xi xj] queue]; simpl in *; [done|].
    destruct (Revise c xi xj) as [[[]|e|] c'] eqn:HR; simpl; [| |done|].
    + destruct (Revise_true_weight _ _ _ _ HR) as (Hv & Hn & Hw).
      destruct (domains c' !! xi) as [Di|]; [|done].
      destruct (decide (Di = ∅)); [done|].
      destruct (neighbors c' !! xi) as [ns|] eqn:Hns; [|done].
      apply IH. rewrite length_app, length_fmap.
      pose proof (length_filter (λ xk, xk ≠ xj) ns) as Hf.
      pose proof (max_degree_ge c' xi ns Hns) as Hd.
      assert (max_degree c' = max_degree c) as Hm by (unfold max_degree; by rewrite Hn).
      rewrite Hm in *. nia.
    + apply Revise_inv in HR as [(? & ? & ?)|[(_ & -> & _)|(? & ? & ? & _)]]; [done| |done].
      apply IH. lia.
    + by apply Revise_no_fuel in HR.
Qed.

Lemma AC3_loop_fuel_mono fuel : ∀ fuel' queue c,
  (AC3_loop fuel queue c).1 ≠ OutOfFuel → fuel ≤ fuel' →
  AC3_loop fuel' queue c = AC3_loop fuel queue c.
Proof.
  induction fuel as [|fuel IH]; intros fuel' queue c Hne Hle.
  - destruct queue as [|[xi xj] queue]; simpl in *; [by destruct fuel'|done].
  - destruct fuel' as [|fuel']; [lia|].
    destruct queue as [|[xi xj] queue]; simpl in *; [done|].
    destruct (Revise c xi xj) as [[[]|e|] c'] eqn:HR; simpl; [| |done..].
    + destruct (domains c' !! xi) as [Di|]; [|done].
      destruct (decide (Di = ∅)); [done|].
      destruct (neighbors c' !! xi) as [ns|] eqn:Hns; [|done].
      apply IH; [done|lia].
    + apply IH; [done|lia].
Qed.

Lemma all_arcs_length c vars queue :
  all_arcs c vars = Ret queue →
  length queue = sum_list ((λ xi, length (default [] (neighbors c !! xi))) <$> vars).
Proof.
  revert queue. induction vars as [|xi vars IH]; intros queue H; simpl in *.
  - by simplify_eq.
  - destruct (neighbors c !! xi) as [ns|]; [|done].
    destruct (all_arcs c vars) as [q| |]; simpl in *; [|done..].
    simplify_eq. rewrite length_app, length_fmap, (IH q); done.
Qed.

Lemma AC3_no_fuel c : (AC3 c).1 ≠ OutOfFuel.
Proof.
  unfold AC3, AC3_fuel.
  destruct (all_arcs c (variables c)) as [queue|e|] eqn:Hq; simpl; [|done|].
  - apply AC3_loop_fuel_enough. unfold AC3_bound, num_arcs.
    by rewrite <- (all_arcs_length _ _ _ Hq).
  - exfalso. clear -Hq. revert Hq. generalize (variables c) as vars.
    induction vars as [|xi vars IH]; simpl; [done|].
    destruct (neighbors c !! xi); [|done].
    destruct (all_arcs c vars); simpl; [done..|]. by intros _; apply IH.
Qed.

(** ** What [Revise] and [AC3] leave unchanged *)

Lemma dom_of_set_domain c xi D x :
  dom_of (set_domain c xi D) x = if decide (xi = x) then D else dom_of c x.
Proof.
  unfold dom_of, set_domain. simpl. rewrite lookup_insert.
  by destruct (decide (xi = x)).
Qed.

Lemma dom_of_Some c x D : domains c !! x = Some D → dom_of c x = D.
Proof. unfold dom_of. by intros ->. Qed.

Lemma nbrs_of_Some c x ns : neighbors c !! x = Some ns → nbrs_of c x = ns.
Proof. unfold nbrs_of. by intros ->. Qed.

Lemma nbrs_of_elem c x y :
  y ∈ nbrs_of c x → ∃ ns, neighbors c !! x = Some ns ∧ y ∈ ns.
Proof.
  unfold nbrs_of. destruct (neighbors c !! x) as [ns|]; simpl; [eauto|].
  by intros ?%elem_of_nil.
Qed.

Lemma dom_of_elem c x v :
  v ∈ dom_of c x → ∃ D, domains c !! x = Some D ∧ v ∈ D.
Proof.
  unfold dom_of. destruct (domains c !! x) as [D|]; simpl; [eauto|].
  by intros ?%elem_of_empty.
Qed.

Lemma same_frame_refl c : same_frame c c.
Proof. done. Qed.

Lemma same_frame_trans c1 c2 c3 :
  same_frame c1 c2 → same_frame c2 c3 → same_frame c1 c3.
Proof.
  intros (? & ? & H1) (? & ? & H2). split_and!; [congruence..|].
  intros x. by rewrite H2, H1.
Qed.

Lemma same_frame_set_domain c x D :
  is_Some (domains c !! x) → same_frame c (set_domain c x D).
Proof.
  intros Hx. split_and!; [done..|]. intros y. simpl.
  rewrite lookup_insert_is_Some. destruct (decide (x = y)) as [->|]; naive_solver.
Qed.

Lemma same_frame_nbrs_of c c' x : same_frame c c' → nbrs_of c' x = nbrs_of c x.
Proof. intros (_ & Hn & _). unfold nbrs_of. by rewrite Hn. Qed.

Lemma Revise_frame c xi xj r c' :
  Revise c xi xj = (r, c') →
  same_frame c c' ∧ ∀ x, dom_of c' x ⊆ dom_of c x.
Proof.
  intros H. apply Revise_inv in H
    as [(e & _ & ->)|[(_ & -> & _)|(Di & Dj & _ & Hi & Hj & -> & _)]]; [done..|].
  split; [by apply same_frame_set_domain|].
  intros x. rewrite dom_of_set_domain. destruct (decide (xi = x)) as [<-|]; [|done].
  rewrite (dom_of_Some _ _ _ Hi). intros y Hy. by apply elem_of_filter in Hy as [_ ?].
Qed.

Lemma AC3_loop_frame fuel : ∀ queue c r c',
  AC3_loop fuel queue c = (r, c') →
  same_frame c c' ∧ ∀ x, dom_of c' x ⊆ dom_of c x.
Proof.
  induction fuel as [|fuel IH]; intros queue c r c' H.
  - destruct queue as [|[xi xj] queue]; simpl in H; by simplify_eq.
  - destruct queue as [|[xi xj] queue]; simpl in H; [by simplify_eq|].
    destruct (Revise c xi xj) as [r1 c1] eqn:HR.
    destruct (Revise_frame _ _ _ _ _ HR) as [Hf Hs].
    assert (∀ q, AC3_loop fuel q c1 = (r, c') →
              same_frame c c' ∧ ∀ x, dom_of c' x ⊆ dom_of c x) as Hstep.
    { intros q Hq. destruct (IH _ _ _ _ Hq) as [Hf' Hs']. split.
      - by eapply same_frame_trans.
      - intros x. etrans; [apply Hs'|apply Hs]. }
    destruct r1 as [[]|e|]; [| |by simplify_eq..].
    + destruct (domains c1 !! xi) as [Di|]; [|by simplify_eq].
      destruct (decide (Di = ∅)); [by simplify_eq|].
      destruct (neighbors c1 !! xi) as [ns|]; [|by simplify_eq].
      by eapply Hstep.
    + by eapply Hstep.
Qed.

Lemma AC3_frame c r c' :
  AC3 c = (r, c') → same_frame c c' ∧ ∀ x, dom_of c' x ⊆ dom_of c x.
Proof.
  unfold AC3, AC3_fuel. intros H.
  destruct (all_arcs c (variables c)) as [queue|e|]; [|by simplify_eq..].
  by eapply AC3_loop_frame.
Qed.

Lemma all_arcs_elem c vars queue xi xj :
  all_arcs c vars = Ret queue → xi ∈ vars → xj ∈ nbrs_of c xi → (xi, xj) ∈ queue.
Proof.
  revert queue. induction vars as [|v vars IH]; intros queue H Hi Hj; simpl in *.
  - by apply elem_of_nil in Hi.
  - destruct (neighbors c !! v) as [ns|] eqn:Hv; [|done].
    destruct (all_arcs c vars) as [q| |]; simpl in *; [|done..].
    simplify_eq. apply elem_of_app. apply elem_of_cons in Hi as [->|Hi].
    + left. apply list_elem_of_fmap. exists xj. split; [done|].
      by rewrite (nbrs_of_Some _ _ _ Hv) in Hj.
    + right. by apply IH.
Qed.

(** ** Arc consistency of the result of [AC3] *)

Lemma symmetric_neighbors_elim c xi xj :
  symmetric_neighbors c → xj ∈ nbrs_of c xi → xi ∈ nbrs_of c xj.
Proof.
  intros Hs Hj. apply nbrs_of_elem in Hj as (ns & Hns & Hj).
  specialize (Hs xi ns Hns). rewrite Forall_forall in Hs. by apply Hs.
Qed.

Lemma arc_consistent_elim c xi xj :
  arc_consistent c → xi ∈ variables c → xj ∈ nbrs_of c xi → arc_ok c xi xj.
Proof.
  unfold arc_consistent. rewrite Forall_forall. intros H Hi Hj.
  specialize (H xi Hi). rewrite Forall_forall in H. by apply H.
Qed.

Lemma arc_consistent_intro c :
  (∀ xi xj, xi ∈ variables c → xj ∈ nbrs_of c xi → arc_ok c xi xj) →
  arc_consistent c.
Proof.
  intros H. apply Forall_forall. intros xi Hi. apply Forall_forall. intros xj Hj.
  by apply H.
Qed.

(** After a successful [Revise] of [(xi, xj)] the arc itself is
    consistent, and so is every arc into [xi] that was consistent before
    and starts at [xj]. *)
Lemma arc_ok_revised c xi xj Di Dj :
  domains c !! xi = Some Di → domains c !! xj = Some Dj →
  arc_ok (set_domain c xi (filter (λ x, has_support Dj x) Di)) xi xj.
Proof.
  unfold arc_ok, set_Forall, has_support, set_Exists.
  intros Hi Hj x. rewrite !dom_of_set_domain.
  destruct (decide (xi = xi)); [|done].
  intros [(y & Hy & Hne) Hx]%elem_of_filter.
  destruct (decide (xi = xj)) as [<-|].
  - assert (Dj = Di) as -> by congruence.
    exists y. split; [|done]. apply elem_of_filter. split; [|done].
    exists x. split; [done|]. congruence.
  - rewrite (dom_of_Some _ _ _ Hj). by exists y.
Qed.

Lemma arc_ok_reverse c xi xj Di Dj :
  domains c !! xi = Some Di → domains c !! xj = Some Dj → xi ≠ xj →
  arc_ok c xj xi →
  arc_ok (set_domain c xi (filter (λ x, has_support Dj x) Di)) xj xi.
Proof.
  unfold arc_ok, set_Forall, has_support, set_Exists.
  intros Hi Hj Hne Hok x. rewrite !dom_of_set_domain.
  destruct (decide (xi = xj)); [done|]. destruct (decide (xi = xi)); [|done].
  intros Hx. destruct (Hok x Hx) as (y & Hy & Hyx).
  rewrite (dom_of_Some _ _ _ Hi) in Hy. rewrite (dom_of_Some _ _ _ Hj) in Hx.
  exists y. split; [|done]. apply elem_of_filter. split; [|done].
  exists x. split; [done|]. congruence.
Qed.

Lemma arc_ok_other c xi D a b :
  D ⊆ dom_of c xi → b ≠ xi → arc_ok c a b → arc_ok (set_domain c xi D) a b.
Proof.
  unfold arc_ok, set_Forall, has_support, set_Exists.
  intros Hs Hb Hok x. rewrite !dom_of_set_domain.
  destruct (decide (xi = b)); [done|].
  intros Hx. apply Hok. destruct (decide (xi = a)) as [<-|]; [by apply Hs|done].
Qed.

Lemma AC3_loop_arc_consistent fuel : ∀ queue c c',
  symmetric_neighbors c →
  (∀ xi xj, xi ∈ variables c → xj ∈ nbrs_of c xi →
            (xi, xj) ∈ queue ∨ arc_ok c xi xj) →
  AC3_loop fuel queue c = (Ret true, c') →
  arc_consistent c'.
Proof.
  induction fuel as [|fuel IH]; intros queue c c' Hsym Hinv H.
  - destruct queue as [|[xi xj] queue]; simpl in H; [|done]. simplify_eq.
    apply arc_consistent_intro. intros xi xj Hi Hj.
    destruct (Hinv xi xj Hi Hj) as [?%elem_of_nil|]; done.
  - destruct queue as [|[xi xj] queue]; simpl in H.
    { simplify_eq. apply arc_consistent_intro. intros xi xj Hi Hj.
      destruct (Hinv xi xj Hi Hj) as [?%elem_of_nil|]; done. }
    destruct (Revise c xi xj) as [r1 c1] eqn:HR.
    apply Revise_inv in HR
      as [(e & -> & ->)|[(-> & -> & Hok)|(Di & Dj & -> & Hi & Hj & -> & _)]]; [done| |].
    + apply (IH queue c c'); [done| |done].
      intros a b Ha Hb. destruct (Hinv a b Ha Hb) as [Hq|?]; [|by right].
      apply elem_of_cons in Hq as [?|?]; [|by left]. simplify_eq. by right.
    + set (Di' := filter (λ x, has_support Dj x) Di) in *.
      set (c1 := set_domain c xi Di') in *.
      assert (Di' ⊆ dom_of c xi) as Hsub.
      { rewrite (dom_of_Some _ _ _ Hi). intros y Hy. by apply elem_of_filter in Hy as [_ ?]. }
      destruct (domains c1 !! xi) as [Di1|]; [|done].
      destruct (decide (Di1 = ∅)); [done|].
      destruct (neighbors c1 !! xi) as [ns|] eqn:Hns; [|done].
      eapply (IH _ c1 c'); [done| |exact H].
      intros a b Ha Hb. change (variables c1) with (variables c) in Ha.
      change (nbrs_of c1 a) with (nbrs_of c a) in Hb.
      rewrite elem_of_app.
      destruct (decide (b = xi)) as [->|Hbi].
      * (* an arc into the revised variable *)
        destruct (decide (a = xj)) as [->|Haj].
        -- destruct (decide (xi = xj)) as [<-|Hij].
           { right. by apply arc_ok_revised. }
           destruct (Hinv xj xi Ha Hb) as [Hq|Hok].
           ++ apply elem_of_cons in Hq as [?|?]; [by simplify_eq|]. by left; left.
           ++ right. by apply arc_ok_reverse.
        -- left; right. apply list_elem_of_fmap. exists a. split; [done|].
           apply list_elem_of_filter. split; [done|].
           pose proof (symmetric_neighbors_elim c a xi Hsym Hb) as Hx.
           change (neighbors c1) with (neighbors c) in Hns.
           by rewrite (nbrs_of_Some _ _ _ Hns) in Hx.
      * destruct (Hinv a b Ha Hb) as [Hq|Hok].
        -- apply elem_of_cons in Hq as [?|?]; [|by left; left]. simplify_eq.
           right. by apply arc_ok_revised.
        -- right. by apply arc_ok_other.
Qed.

(** ** No failing lookup on well-formed models *)

Lemma wf_csp_variable c x :
  wf_csp c → x ∈ variables c →
  is_Some (domains c !! x) ∧ is_Some (neighbors c !! x).
Proof. intros [H _]. rewrite Forall_forall in H. apply H. Qed.

Lemma wf_csp_neighbor c x y :
  wf_csp c → y ∈ nbrs_of c x → y ∈ variables c.
Proof.
  intros [_ H] (ns & Hns & Hy)%nbrs_of_elem.
  specialize (H x ns Hns). rewrite Forall_forall in H. by apply H.
Qed.

Lemma wf_csp_frame c c' : same_frame c c' → wf_csp c → wf_csp c'.
Proof.
  intros (Hv & Hn & Hd) [H1 H2]. split.
  - rewrite Hv, Hn. eapply Forall_impl; [exact H1|]. intros x [? ?]. by rewrite Hd.
  - by rewrite Hv, Hn.
Qed.

Lemma symmetric_neighbors_frame c c' :
  same_frame c c' → symmetric_neighbors c → symmetric_neighbors c'.
Proof.
  intros (Hv & Hn & Hd). unfold symmetric_neighbors, nbrs_of. by rewrite Hn.
Qed.

Lemma all_arcs_wf c vars :
  wf_csp c → vars ⊆ variables c →
  ∃ queue, all_arcs c vars = Ret queue
    ∧ ∀ xi xj, (xi, xj) ∈ queue → xi ∈ variables c ∧ xj ∈ nbrs_of c xi.
Proof.
  intros Hwf. induction vars as [|v vars IH]; intros Hsub; simpl.
  - exists []. split; [done|]. by intros ?? ?%elem_of_nil.
  - destruct (wf_csp_variable c v Hwf) as [_ [ns Hns]]; [set_solver|].
    destruct IH as (q & -> & Hq); [set_solver|]. rewrite Hns. simpl.
    eexists. split; [done|]. intros xi xj [Hin|Hin]%elem_of_app; [|by apply Hq].
    apply list_elem_of_fmap in Hin as (y & ? & Hy). simplify_eq.
    split; [set_solver|]. by rewrite (nbrs_of_Some _ _ _ Hns).
Qed.

Lemma Revise_no_raise c xi xj e c' :
  is_Some (domains c !! xi) → is_Some (domains c !! xj) →
  Revise c xi xj ≠ (Raise e, c').
Proof.
  intros [Di Hi] [Dj Hj]. unfold Revise. rewrite Hi, Hj.
  destruct (decide (Di = ∅)); [done|].
  by destruct (decide (filter (λ x, ¬ has_support Dj x) Di = ∅)).
Qed.

Lemma AC3_loop_no_raise fuel : ∀ queue c e c',
  wf_csp c →
  (∀ xi xj, (xi, xj) ∈ queue → xi ∈ variables c ∧ xj ∈ variables c) →
  AC3_loop fuel queue c ≠ (Raise e, c').
Proof.
  induction fuel as [|fuel IH]; intros queue c e c' Hwf Hq H.
  - destruct queue as [|[xi xj] queue]; simpl in H; done.
  - destruct queue as [|[xi xj] queue]; simpl in H; [done|].
    destruct (Hq xi xj) as [Hxi Hxj]; [by left|].
    destruct (wf_csp_variable c xi Hwf Hxi) as [[Di Hi] [ns Hns]].
    destruct (wf_csp_variable c xj Hwf Hxj) as [[Dj Hj] _].
    destruct (Revise c xi xj) as [r1 c1] eqn:HR.
    destruct (Revise_frame _ _ _ _ _ HR) as [Hf _].
    pose proof (wf_csp_frame _ _ Hf Hwf) as Hwf1.
    destruct Hf as (Hv & Hn & Hd).
    destruct r1 as [[]|e1|].
    + destruct (domains c1 !! xi) as [Di2|] eqn:Hi2.
      2:{ specialize (Hd xi). rewrite Hi, Hi2 in Hd.
          destruct Hd as [_ Hd]. by destruct Hd as [? ?]. }
      destruct (decide (Di2 = ∅)); [done|].
      rewrite Hn, Hns in H.
      eapply IH; [exact Hwf1| |exact H].
      intros a b [Hab|Hab]%elem_of_app.
      * rewrite Hv. apply Hq. by right.
      * apply list_elem_of_fmap in Hab as (y & ? & Hy). simplify_eq.
        apply list_elem_of_filter in Hy as [_ Hy].
        rewrite <- (nbrs_of_Some _ _ _ Hns) in Hy.
        rewrite Hv. split; [by eapply wf_csp_neighbor|done].
    + eapply IH; [exact Hwf1| |exact H].
      intros a b Hab. rewrite Hv. apply Hq. by right.
    + by eapply Revise_no_raise in HR.
    + by apply Revise_no_fuel in HR.
Qed.

(** On a well-formed model [AC3] returns a flag. *)
Lemma AC3_returns c : wf_csp c → ∃ b c', AC3 c = (Ret b, c').
Proof.
  intros Hwf. pose proof (AC3_no_fuel c) as Hfuel.
  destruct (AC3 c) as [[b|e|] c'] eqn:H; [by eauto| |done].
  exfalso. unfold AC3, AC3_fuel in H.
  destruct (all_arcs_wf c (variables c) Hwf) as (queue & Hq & Harcs); [done|].
  rewrite Hq in H. eapply AC3_loop_no_raise; [exact Hwf| |exact H].
  intros xi xj Hin. destruct (Harcs xi xj Hin) as [? ?].
  split; [done|]. by eapply wf_csp_neighbor.
Qed.

(** ** Detecting a conflict *)

Lemma AC3_loop_false_empty fuel : ∀ queue c c',
  AC3_loop fuel queue c = (Ret false, c') → ∃ x, domains c' !! x = Some ∅.
Proof.
  induction fuel as [|fuel IH]; intros queue c c' H.
  - destruct queue as [|[xi xj] queue]; simpl in H; done.
  - destruct queue as [|[xi xj] queue]; simpl in H; [done|].
    destruct (Revise c xi xj) as [[[]|e|] c1] eqn:HR; [| |done..].
    + destruct (domains c1 !! xi) as [Di|] eqn:Hi; [|done].
      destruct (decide (Di = ∅)) as [->|]; [simplify_eq; by exists xi|].
      destruct (neighbors c1 !! xi) as [ns|]; [|done]. by eapply IH.
    + by eapply IH.
Qed.

(** While the arc [(xi, xj)] waits in the queue and both ends hold at
    most the value [v], the loop cannot end with [True]. *)
Lemma AC3_loop_conflict fuel : ∀ queue c c' xi xj v,
  (xi, xj) ∈ queue →
  domains c !! xi = Some {[v]} → dom_of c xj ⊆ {[v]} →
  AC3_loop fuel queue c ≠ (Ret true, c').
Proof.
  induction fuel as [|fuel IH]; intros queue c c' xi xj v Hin Hi Hj H.
  - destruct queue as [|[a b] queue]; simpl in H; [by apply elem_of_nil in Hin|done].
  - destruct queue as [|[a b] queue]; simpl in H; [by apply elem_of_nil in Hin|].
    destruct (Revise c a b) as [r1 c1] eqn:HR.
    apply Revise_inv in HR
      as [(e1 & -> & ->)|[(-> & -> & Hok)|(Da & Db & -> & Ha & Hb & -> & x & Hx & Hnx)]];
      [done| |].
    + apply elem_of_cons in Hin as [Heq|Hin]; [|by eapply IH].
      simplify_eq. specialize (Hok v). rewrite (dom_of_Some _ _ _ Hi) in Hok.
      destruct Hok as (y & Hy & Hne); [set_solver|]. apply Hj in Hy. set_solver.
    + simpl in H. rewrite lookup_insert_eq in H.
      destruct (decide (filter (λ x, has_support Db x) Da = ∅)) as [|Hne]; [done|].
      destruct (neighbors c !! a) as [ns|]; [|done].
      destruct (decide (a = xi)) as [->|Hai].
      * (* a singleton that loses a value is empty *)
        apply Hne. assert (Da = {[v]}) as -> by congruence.
        apply set_eq. intros y. rewrite elem_of_filter. split; [|set_solver].
        intros [Hs Hy]. exfalso. apply Hnx.
        apply elem_of_singleton in Hx, Hy. by subst.
      * eapply IH; [| | |exact H].
        -- apply elem_of_cons in Hin as [?|?]; [by simplify_eq|].
           apply elem_of_app. by left.
        -- simpl. by rewrite lookup_insert_ne.
        -- rewrite dom_of_set_domain. destruct (decide (a = xj)) as [->|]; [|done].
           rewrite (dom_of_Some _ _ _ Ha) in Hj. intros y Hy.
           apply elem_of_filter in Hy as [_ Hy]. by apply Hj.
Qed.

(** ** [select_unassigned_variable] *)

Lemma unassigned_variables_filter c vars :
  Forall (λ v, is_Some (domains c !! v)) vars →
  unassigned_variables c vars = Ret (filter (λ v, 1 < domain_size c v) vars).
Proof.
  induction 1 as [|v vars [D Hv] _ IH]; [done|].
  cbn [unassigned_variables].
  rewrite Hv, IH. cbn [mbind res_bind]. rewrite filter_cons.
  destruct (decide (1 < domain_size c v)) as [Hd|Hd]; unfold domain_size in Hd;
    rewrite Hv in Hd; simpl in Hd; by destruct (decide (1 < size D)).
Qed.

Lemma unassigned_variables_Ret c vars l :
  unassigned_variables c vars = Ret l →
  Forall (λ v, is_Some (domains c !! v)) vars.
Proof.
  revert l. induction vars as [|v vars IH]; intros l H; [done|].
  cbn [unassigned_variables] in H.
  destruct (domains c !! v) as [D|] eqn:Hv; [|done].
  destruct (unassigned_variables c vars) as [l'| |]; [|done..].
  constructor; [by rewrite Hv|by eapply IH].
Qed.

(** [py_min_from] returns the first element of minimal key: in the list
    read so far, [pre ++ best :: post], every key before the current best
    is strictly larger and every key after it is at least as large. *)
Lemma py_min_from_spec {A} (key : A → nat) (l : list A) : ∀ pre best post,
  Forall (λ x, key best < key x) pre →
  Forall (λ x, key best ≤ key x) post →
  ∃ l1 l2, pre ++ best :: post ++ l = l1 ++ py_min_from key best l :: l2
    ∧ Forall (λ x, key (py_min_from key best l) < key x) l1
    ∧ Forall (λ x, key (py_min_from key best l) ≤ key x) l2.
Proof.
  induction l as [|x l IH]; intros pre best post Hpre Hpost; simpl.
  - exists pre, post. by rewrite app_nil_r.
  - destruct (decide (key x < key best)) as [Hlt|Hge].
    + destruct (IH (pre ++ best :: post) x []) as (l1 & l2 & Heq & H1 & H2).
      * apply Forall_app. split; [|constructor; [done|]].
        -- eapply Forall_impl; [exact Hpre|]. simpl. lia.
        -- eapply Forall_impl; [exact Hpost|]. simpl. lia.
      * constructor.
      * exists l1, l2. split; [|done]. rewrite <- Heq. by rewrite <- app_assoc.
    + destruct (IH pre best (post ++ [x])) as (l1 & l2 & Heq & H1 & H2); [done| |].
      * apply Forall_app. split; [done|]. constructor; [lia|constructor].
      * exists l1, l2. split; [|done]. rewrite <- Heq. by rewrite <- app_assoc.
Qed.

Lemma py_min_spec {A} (key : A → nat) (l : list A) :
  match py_min key l with
  | None => l = []
  | Some v => ∃ l1 l2, l = l1 ++ v :: l2
      ∧ Forall (λ x, key v < key x) l1 ∧ Forall (λ x, key v ≤ key x) l2
  end.
Proof.
  destruct l as [|x l]; simpl; [done|].
  destruct (py_min_from_spec key l [] x []) as (l1 & l2 & Heq & H1 & H2); [constructor..|].
  by exists l1, l2.
Qed.

Lemma select_unassigned_variable_Ret c r :
  select_unassigned_variable c = Ret r →
  py_min (domain_size c) (filter (λ v, 1 < domain_size c v) (variables c)) = r.
Proof.
  unfold select_unassigned_variable. intros H.
  destruct (unassigned_variables c (variables c)) as [l| |] eqn:Hl; [|done..].
  rewrite unassigned_variables_filter in Hl by (by eapply unassigned_variables_Ret).
  cbn in H. by simplify_eq.
Qed.

Lemma select_unassigned_variable_Some c var :
  select_unassigned_variable c = Ret (Some var) →
  var ∈ variables c ∧ ∃ D, domains c !! var = Some D ∧ 1 < size D.
Proof.
  intros H. apply select_unassigned_variable_Ret in H.
  pose proof (py_min_spec (domain_size c) (filter (λ v, 1 < domain_size c v) (variables c))) as Hs.
  rewrite H in Hs. destruct Hs as (l1 & l2 & Heq & _).
  assert (var ∈ filter (λ v, 1 < domain_size c v) (variables c)) as Hin.
  { rewrite Heq. apply elem_of_app. right. by left. }
  apply list_elem_of_filter in Hin as [Hsz Hin]. split; [done|].
  unfold domain_size in Hsz. destruct (domains c !! var) as [D|].
  - by exists D.
  - exfalso. cbn [default] in Hsz. rewrite size_empty in Hsz. lia.
Qed.

(** ** Values tried by the search *)

Lemma py_sorted_elem D v : v ∈ py_sorted D ↔ v ∈ D.
Proof.
  unfold py_sorted. rewrite merge_sort_Permutation. apply elem_of_elements.
Qed.

Lemma elem_of_py_set_of_str s v :
  v ∈ py_set_of_str s → String.length v = 1.
Proof.
  unfold py_set_of_str. rewrite elem_of_list_to_set, list_elem_of_fmap.
  by intros (a & -> & _).
Qed.

Lemma py_set_of_str_single a : py_set_of_str (String a EmptyString) = {[String a EmptyString]}.
Proof. unfold py_set_of_str. simpl. set_solver. Qed.

Lemma py_set_of_str_length_1 v : String.length v = 1 → py_set_of_str v = {[v]}.
Proof.
  destruct v as [|a [|b v]]; simpl; [done| |done]. intros _. apply py_set_of_str_single.
Qed.

Lemma dom_weight_ones (D : gset string) :
  set_Forall (λ v, String.length v = 1) D → dom_weight D = size D.
Proof.
  intros H. unfold dom_weight, size, set_size. simpl.
  assert (Forall (λ v, String.length v = 1) (elements D)) as HF.
  { apply Forall_forall. intros v Hv. apply H. by apply elem_of_elements. }
  revert HF. generalize (elements D) as l.
  induction l as [|v l IH]; intros HF; [done|].
  apply Forall_cons in HF as [Hv HF]. specialize (IH HF).
  rewrite fmap_cons. cbn [sum_list_with length]. unfold id at 1.
  unfold value_weight at 1. rewrite Hv. simpl. f_equal. exact IH.
Qed.

Lemma size_list_to_set_le (l : list string) :
  size (list_to_set l : gset string) ≤ length l.
Proof.
  induction l as [|x l IH].
  - by rewrite list_to_set_nil, size_empty.
  - rewrite list_to_set_cons, size_union_alt, size_singleton.
    assert (size ((list_to_set l : gset string) ∖ {[x]}) ≤ size (list_to_set l : gset string))
      by (apply subseteq_size; set_solver).
    simpl. lia.
Qed.

(** Collapsing a domain of at least two values to the characters of one
    of them makes the domain lighter. *)
Lemma dom_weight_py_set_of_str D v :
  v ∈ D → 1 < size D → dom_weight (py_set_of_str v) < dom_weight D.
Proof.
  intros Hv Hsz.
  assert (dom_weight (py_set_of_str v) ≤ value_weight v) as H1.
  { rewrite dom_weight_ones by (intros x; apply elem_of_py_set_of_str).
    unfold py_set_of_str. etrans; [apply size_list_to_set_le|].
    rewrite length_fmap. unfold value_weight.
    assert (length (list_ascii_of_string v) = String.length v) as ->; [|lia].
    clear. induction v; simpl; congruence. }
  assert (value_weight v < dom_weight D); [|lia].
  destruct (decide (D ∖ {[v]} = ∅)) as [He|Hne].
  - assert (D ⊆ {[v]}) as Hs.
    { intros y Hy. destruct (decide (y = v)) as [->|Hne]; [set_solver|].
      assert (y ∈ D ∖ {[v]}) as Hin by set_solver. rewrite He in Hin. set_solver. }
    apply subseteq_size in Hs. rewrite size_singleton in Hs. lia.
  - apply set_choose_L in Hne as [y Hy].
    rewrite <- dom_weight_singleton. apply (dom_weight_strict _ _ y); set_solver.
Qed.

(** ** The search on the store *)

Section BacktrackingStore.

Variable set_order : list Var → list Var.

(** One trial of the loop: the clone is appended to the store, collapsed
    and propagated in place; the rest of the store is untouched. *)
Lemma trial_step (h : list CSP) csp c var value :
  h !! csp = Some c →
  deepcopy set_order csp h = (Ret (length h), h ++ [clone set_order c])
  ∧ AC3_ref (length h)
      (alter (λ c, set_domain c var (py_set_of_str value)) (length h)
         (h ++ [clone set_order c]))
    = ((AC3 (set_domain (clone set_order c) var (py_set_of_str value))).1,
       h ++ [(AC3 (set_domain (clone set_order c) var (py_set_of_str value))).2]).
Proof.
  intros Hc. split.
  - unfold deepcopy. by rewrite Hc.
  - rewrite alter_app_r_alt, Nat.sub_diag by done. simpl.
    unfold AC3_ref. rewrite lookup_app_r, Nat.sub_diag by done. simpl.
    destruct (AC3 _) as [b c']. simpl.
    by rewrite insert_app_r_alt, Nat.sub_diag by done.
Qed.

Lemma try_values_sound rec_h rec_v :
  (∀ (h : list CSP) r c res h', h !! r = Some c → rec_h r h = (res, h') →
     h `prefix_of` h' ∧ deref h' res = rec_v c
     ∧ ∀ s, res = Ret (Some s) → is_Some (h' !! s)) →
  ∀ csp c var vals (h : list CSP) res h',
    h !! csp = Some c →
    try_values set_order rec_h csp var vals h = (res, h') →
    h `prefix_of` h' ∧ deref h' res = try_values_val set_order rec_v c var vals
    ∧ ∀ s, res = Ret (Some s) → is_Some (h' !! s).
Proof.
  intros Hrec csp c var vals.
  induction vals as [|value vals IH]; intros h res h' Hc H.
  - simpl in H. by simplify_eq.
  - cbn [try_values try_values_val] in *.
    destruct (trial_step h csp c var value Hc) as [Hd Ha].
    rewrite Hd in H. cbv zeta in H. rewrite Ha in H.
    destruct (AC3 (set_domain (clone set_order c) var (py_set_of_str value)))
      as [[[]|e|] c3]; cbn [fst snd] in H.
    + destruct (rec_h (length h) (h ++ [c3])) as [res4 h4] eqn:Hr.
      apply Hrec with (c := c3) in Hr as (Hp & Hdr & Hvalid).
      2:{ by rewrite lookup_app_r, Nat.sub_diag by done. }
      assert (h `prefix_of` h4) as Hp4.
      { etrans; [|exact Hp]. by apply prefix_app_r. }
      rewrite <- Hdr.
      destruct res4 as [[result|]|e|]; simplify_eq.
      * destruct (Hvalid result eq_refl) as [cs Hcs]. split_and!; [done| |done].
        simpl. by rewrite Hcs.
      * destruct (IH h4 res h') as (? & ? & ?); [by eapply prefix_lookup_Some|done|].
        split_and!; [by etrans|done..].
      * done.
      * done.
    + destruct (IH (h ++ [c3]) res h') as (? & ? & ?); [|done|].
      { by apply lookup_app_l_Some. }
      split_and!; [|done..]. etrans; [|done]. by apply prefix_app_r.
    + simplify_eq. split_and!; [by apply prefix_app_r|done..].
    + simplify_eq. split_and!; [by apply prefix_app_r|done..].
Qed.

(** [backtrack_fuel] only appends to the store and computes what
    [search_fuel] computes on the model it is given. *)
Lemma backtrack_fuel_sound fuel : ∀ (h : list CSP) csp c res h',
  h !! csp = Some c →
  backtrack_fuel set_order fuel csp h = (res, h') →
  h `prefix_of` h' ∧ deref h' res = search_fuel set_order fuel c
  ∧ ∀ s, res = Ret (Some s) → is_Some (h' !! s).
Proof.
  induction fuel as [|fuel IH]; intros h csp c res h' Hc H.
  - simpl in H. by simplify_eq.
  - cbn [backtrack_fuel search_fuel] in *. rewrite Hc in H.
    destruct (is_solved c).
    { simplify_eq. split_and!; [done|by simpl; rewrite Hc|]. intros s ?. simplify_eq. eauto. }
    destruct (select_unassigned_variable c) as [[var|]|e|]; [| by simplify_eq..].
    destruct (domains c !! var) as [D|]; [|by simplify_eq].
    eapply try_values_sound; [|exact Hc|exact H]. intros. by eapply IH.
Qed.

Lemma backtrack_prefix csp (h : list CSP) res h' :
  backtrack set_order csp h = (res, h') → h `prefix_of` h'.
Proof.
  unfold backtrack. destruct (h !! csp) as [c|] eqn:Hc; [|by intros; simplify_eq].
  intros H. by eapply backtrack_fuel_sound.
Qed.

End BacktrackingStore.

(** ** The weight of a model never grows *)

Lemma AC3_loop_weight fuel : ∀ queue c r c',
  AC3_loop fuel queue c = (r, c') → total_weight c' ≤ total_weight c.
Proof.
  induction fuel as [|fuel IH]; intros queue c r c' H.
  - destruct queue as [|[xi xj] queue]; simpl in H; by simplify_eq.
  - destruct queue as [|[xi xj] queue]; simpl in H; [by simplify_eq|].
    destruct (Revise c xi xj) as [r1 c1] eqn:HR.
    assert (total_weight c1 ≤ total_weight c) as Hle.
    { destruct r1 as [[]|e|].
      - apply Revise_true_weight in HR as (_ & _ & ?). lia.
      - apply Revise_inv in HR as [(? & ? & ?)|[(_ & -> & _)|(? & ? & ? & _)]]; done.
      - apply Revise_inv in HR as [(? & ? & ->)|[(? & _)|(? & ? & ? & _)]]; done.
      - by apply Revise_no_fuel in HR. }
    destruct r1 as [[]|e|]; [| |by simplify_eq..].
    + destruct (domains c1 !! xi) as [Di|]; [|by simplify_eq].
      destruct (decide (Di = ∅)); [by simplify_eq|].
      destruct (neighbors c1 !! xi) as [ns|]; [|by simplify_eq].
      apply IH in H. lia.
    + apply IH in H. lia.
Qed.

Lemma AC3_weight c r c' : AC3 c = (r, c') → total_weight c' ≤ total_weight c.
Proof.
  unfold AC3, AC3_fuel. intros H.
  destruct (all_arcs c (variables c)) as [queue|e|]; [|by simplify_eq..].
  by eapply AC3_loop_weight.
Qed.

Lemma select_unassigned_variable_no_fuel c :
  select_unassigned_variable c ≠ OutOfFuel.
Proof.
  unfold select_unassigned_variable.
  assert (unassigned_variables c (variables c) ≠ OutOfFuel) as H.
  { generalize (variables c) as vars.
    induction vars as [|v vars IH]; [done|]. cbn [unassigned_variables].
    destruct (domains c !! v); [|done].
    by destruct (unassigned_variables c vars). }
  by destruct (unassigned_variables c (variables c)).
Qed.

Section BacktrackingValues.

Variable set_order : list Var → list Var.

Lemma total_weight_collapse c var D v :
  domains c !! var = Some D → v ∈ D → 1 < size D →
  total_weight (set_domain (clone set_order c) var (py_set_of_str v)) < total_weight c.
Proof.
  intros Hvar Hv Hsz.
  pose proof (total_weight_insert (clone set_order c) var D (py_set_of_str v) Hvar) as Hw.
  pose proof (dom_weight_py_set_of_str D v Hv Hsz).
  change (total_weight (clone set_order c)) with (total_weight c) in Hw. lia.
Qed.

(** ** Termination of the search *)

Lemma try_values_val_fuel rec c var D vals :
  domains c !! var = Some D → 1 < size D →
  (∀ c', total_weight c' < total_weight c → rec c' ≠ OutOfFuel) →
  Forall (λ v, v ∈ D) vals →
  try_values_val set_order rec c var vals ≠ OutOfFuel.
Proof.
  intros Hvar Hsz Hrec. induction 1 as [|v vals Hv _ IH]; [done|].
  cbn [try_values_val].
  pose proof (total_weight_collapse c var D v Hvar Hv Hsz) as Hlt.
  pose proof (AC3_no_fuel (set_domain (clone set_order c) var (py_set_of_str v))) as Hnf.
  destruct (AC3 _) as [[[]|e|] c'] eqn:HA; [| done..].
  apply AC3_weight in HA.
  specialize (Hrec c'). destruct (rec c') as [[?|]|?|]; try done.
  exfalso. apply Hrec; [lia|done].
Qed.

Lemma search_fuel_enough fuel : ∀ c,
  total_weight c < fuel → search_fuel set_order fuel c ≠ OutOfFuel.
Proof.
  induction fuel as [|fuel IH]; intros c Hlt; [lia|].
  cbn [search_fuel]. destruct (is_solved c); [done|].
  destruct (select_unassigned_variable c) as [[var|]|e|] eqn:Hsel; [|done..|].
  - apply select_unassigned_variable_Some in Hsel as (_ & D & HD & Hsz).
    rewrite HD. apply (try_values_val_fuel _ _ _ D); [done..| |].
    + intros c' Hc'. apply IH. lia.
    + apply Forall_forall. intros v. apply py_sorted_elem.
  - by apply select_unassigned_variable_no_fuel in Hsel.
Qed.

(** ** Cloning and collapsing keep a model well formed *)

Hypothesis set_order_spec : is_set_order set_order.

Lemma nbrs_of_clone c x y : y ∈ nbrs_of (clone set_order c) x ↔ y ∈ nbrs_of c x.
Proof.
  unfold nbrs_of, clone. simpl. rewrite lookup_fmap.
  destruct (neighbors c !! x) as [ns|]; simpl; [apply set_order_spec|done].
Qed.

Lemma wf_csp_clone c : wf_csp c → wf_csp (clone set_order c).
Proof.
  intros [H1 H2]. split; simpl.
  - eapply Forall_impl; [exact H1|]. intros x [? ?]. split; [done|].
    rewrite lookup_fmap. by apply fmap_is_Some.
  - apply map_Forall_fmap. intros x ns Hns. simpl.
    specialize (H2 x ns Hns). simpl in H2. rewrite Forall_forall in *.
    intros y Hy. apply H2. by apply set_order_spec.
Qed.

Lemma symmetric_neighbors_clone c :
  symmetric_neighbors c → symmetric_neighbors (clone set_order c).
Proof.
  intros Hs x ns' Hx. simpl in Hx. rewrite lookup_fmap in Hx.
  destruct (neighbors c !! x) as [ns|] eqn:Hns; simplify_eq/=.
  apply Forall_forall. intros y Hy. apply nbrs_of_clone.
  apply (symmetric_neighbors_elim c x y Hs).
  rewrite (nbrs_of_Some _ _ _ Hns). by apply set_order_spec.
Qed.

Lemma wf_csp_set_domain c x D : wf_csp c → wf_csp (set_domain c x D).
Proof.
  intros [H1 H2]. split; [|done]. simpl.
  eapply Forall_impl; [exact H1|]. intros y [? ?]. split; [|done].
  rewrite lookup_insert_is_Some. destruct (decide (x = y)); auto.
Qed.

Lemma symmetric_neighbors_set_domain c x D :
  symmetric_neighbors c → symmetric_neighbors (set_domain c x D).
Proof. done. Qed.

(** ** Soundness of the search *)

Lemma try_values_val_sound (P : CSP → Prop) rec c var vals s :
  wf_csp c → symmetric_neighbors c →
  (∀ c' s, wf_csp c' → symmetric_neighbors c' → arc_consistent c' →
           rec c' = Ret (Some s) → P s) →
  try_values_val set_order rec c var vals = Ret (Some s) → P s.
Proof.
  intros Hwf Hsym Hrec. induction vals as [|v vals IH]; [done|].
  cbn [try_values_val].
  destruct (AC3 _) as [[[]|e|] c'] eqn:HA; [|done..].
  destruct (AC3_frame _ _ _ HA) as [Hf _].
  destruct (rec c') as [[s'|]|?|] eqn:Hr; [|done..].
  intros ?; simplify_eq. eapply Hrec; [| | |exact Hr].
  - eapply wf_csp_frame; [exact Hf|]. by apply wf_csp_set_domain, wf_csp_clone.
  - eapply symmetric_neighbors_frame; [exact Hf|].
    by apply symmetric_neighbors_set_domain, symmetric_neighbors_clone.
  - unfold AC3, AC3_fuel in HA.
    destruct (all_arcs _ _) as [queue|?|] eqn:Hq; [|done..].
    eapply AC3_loop_arc_consistent; [| |exact HA].
    + by apply symmetric_neighbors_set_domain, symmetric_neighbors_clone.
    + intros xi xj Hi Hj. left. by eapply all_arcs_elem.
Qed.

Lemma search_fuel_sound fuel : ∀ c s,
  wf_csp c → symmetric_neighbors c → arc_consistent c →
  search_fuel set_order fuel c = Ret (Some s) →
  is_solved s = true ∧ arc_consistent s ∧ wf_csp s.
Proof.
  induction fuel as [|fuel IH]; intros c s Hwf Hsym Hac H; [done|].
  cbn [search_fuel] in H. destruct (is_solved c) eqn:Hsol; [by simplify_eq|].
  destruct (select_unassigned_variable c) as [[var|]|e|]; [|done..].
  destruct (domains c !! var) as [D|]; [|done].
  eapply (try_values_val_sound (λ s, is_solved s = true ∧ arc_consistent s ∧ wf_csp s));
    [exact Hwf|exact Hsym| |exact H].
  intros c' s' ????. by eapply IH.
Qed.

End BacktrackingValues.

(** ** Solved and arc-consistent models are solutions *)



(** ** [AC3] does not depend on the order of the queue *)

(** A model [E] whose arcs are all consistent and whose domains lie
    below those of [c] stays below every state of the loop: no value of
    [E] is ever removed. *)
Lemma AC3_loop_lower fuel (E : CSP) : ∀ queue c r c',
  wf_csp c → symmetric_neighbors c →
  (∀ a b, (a, b) ∈ queue → a ∈ variables c ∧ b ∈ nbrs_of c a) →
  (∀ a b, a ∈ variables c → b ∈ nbrs_of c a → arc_ok E a b) →
  (∀ x, dom_of E x ⊆ dom_of c x) →
  AC3_loop fuel queue c = (r, c') →
  ∀ x, dom_of E x ⊆ dom_of c' x.
Proof.
  induction fuel as [|fuel IH]; intros queue c r c' Hwf Hsym Hq HE Hle H.
  - destruct queue as [|[xi xj] queue]; simpl in H; by simplify_eq.
  - destruct queue as [|[xi xj] queue]; simpl in H; [by simplify_eq|].
    destruct (Hq xi xj) as [Hxi Hxj]; [by left|].
    destruct (Revise c xi xj) as [r1 c1] eqn:HR.
    apply Revise_inv in HR
      as [(e1 & -> & ->)|[(-> & -> & Hok)|(Di & Dj & -> & Hi & Hj & -> & _)]];
      [by simplify_eq| |].
    + eapply (IH queue c); [done..| |done|done|exact H].
      intros a b Hab. apply Hq. by right.
    + set (c1 := set_domain c xi (filter (λ x, has_support Dj x) Di)) in *.
      assert (∀ x, dom_of E x ⊆ dom_of c1 x) as Hle1.
      { intros x v Hv. unfold c1. rewrite dom_of_set_domain.
        destruct (decide (xi = x)) as [<-|]; [|by apply Hle].
        apply elem_of_filter. split.
        - destruct (HE xi xj Hxi Hxj v Hv) as (y & Hy & Hne).
          exists y. split; [|done]. apply Hle in Hy.
          by rewrite (dom_of_Some _ _ _ Hj) in Hy.
        - apply Hle in Hv. by rewrite (dom_of_Some _ _ _ Hi) in Hv. }
      destruct (domains c1 !! xi) as [Di1|]; [|by simplify_eq].
      destruct (decide (Di1 = ∅)); [by simplify_eq|].
      destruct (neighbors c1 !! xi) as [ns|] eqn:Hns; [|by simplify_eq].
      eapply (IH _ c1); [ | | | | |exact H].
      * by apply wf_csp_set_domain.
      * done.
      * intros a b [Hab|Hab]%elem_of_app; [apply Hq; by right|].
        apply list_elem_of_fmap in Hab as (y & ? & Hy). simplify_eq.
        apply list_elem_of_filter in Hy as [_ Hy].
        change (neighbors c1) with (neighbors c) in Hns.
        rewrite <- (nbrs_of_Some _ _ _ Hns) in Hy.
        split; [exact (wf_csp_neighbor c xi y Hwf Hy)|].
        exact (symmetric_neighbors_elim c xi y Hsym Hy).
      * done.
      * done.
Qed.

Lemma AC3_loop_true_nonempty fuel : ∀ queue c c' x,
  AC3_loop fuel queue c = (Ret true, c') → dom_of c x ≠ ∅ → dom_of c' x ≠ ∅.
Proof.
  induction fuel as [|fuel IH]; intros queue c c' x H Hne.
  - destruct queue as [|[xi xj] queue]; simpl in H; by simplify_eq.
  - destruct queue as [|[xi xj] queue]; simpl in H; [by simplify_eq|].
    destruct (Revise c xi xj) as [r1 c1] eqn:HR.
    apply Revise_inv in HR
      as [(e1 & -> & ->)|[(-> & -> & Hok)|(Di & Dj & -> & Hi & Hj & -> & _)]];
      [by simplify_eq/=|exact (IH _ _ _ _ H Hne)|].
    simpl in H. rewrite lookup_insert_eq in H.
    destruct (decide (filter (λ x, has_support Dj x) Di = ∅)); [done|].
    destruct (neighbors c !! xi) as [ns|]; [|done].
    eapply IH; [exact H|]. rewrite dom_of_set_domain.
    by destruct (decide (xi = x)).
Qed.

Lemma AC3_loop_false_emptied fuel : ∀ queue c c',
  AC3_loop fuel queue c = (Ret false, c') →
  ∃ x, dom_of c x ≠ ∅ ∧ dom_of c' x = ∅.
Proof.
  induction fuel as [|fuel IH]; intros queue c c' H.
  - destruct queue as [|[xi xj] queue]; simpl in H; by simplify_eq.
  - destruct queue as [|[xi xj] queue]; simpl in H; [by simplify_eq|].
    destruct (Revise c xi xj) as [r1 c1] eqn:HR.
    destruct (Revise_frame _ _ _ _ _ HR) as [_ Hsub].
    assert (∀ x, dom_of c1 x ≠ ∅ → dom_of c x ≠ ∅) as Hne.
    { intros x Hx He. apply Hx. specialize (Hsub x). rewrite He in Hsub. set_solver. }
    apply Revise_inv in HR
      as [(e1 & -> & ->)|[(-> & -> & Hok)|(Di & Dj & -> & Hi & Hj & -> & v & Hv & _)]];
      [by simplify_eq/=|exact (IH _ _ _ H)|].
    simpl in H. rewrite lookup_insert_eq in H.
    destruct (decide (filter (λ x, has_support Dj x) Di = ∅)) as [Hemp|].
    + simplify_eq. exists xi. split.
      * rewrite (dom_of_Some _ _ _ Hi). set_solver.
      * rewrite dom_of_set_domain. by destruct (decide (xi = xi)).
    + destruct (neighbors c !! xi) as [ns|]; [|done].
      destruct (IH _ _ _ H) as (x & Hx & He). exists x. split; [by apply Hne|done].
Qed.

Lemma AC3_true_arc_consistent c c' :
  symmetric_neighbors c → AC3 c = (Ret true, c') → arc_consistent c'.
Proof.
  intros Hsym H. unfold AC3, AC3_fuel in H.
  destruct (all_arcs c (variables c)) as [queue|?|] eqn:Hq; [|done..].
  eapply AC3_loop_arc_consistent; [exact Hsym| |exact H].
  intros xi xj Hi Hj. left. by eapply all_arcs_elem.
Qed.

Lemma AC3_lower (E c : CSP) r c' :
  wf_csp c → symmetric_neighbors c →
  (∀ a b, a ∈ variables c → b ∈ nbrs_of c a → arc_ok E a b) →
  (∀ x, dom_of E x ⊆ dom_of c x) →
  AC3 c = (r, c') → ∀ x, dom_of E x ⊆ dom_of c' x.
Proof.
  intros Hwf Hsym HE Hle H. unfold AC3, AC3_fuel in H.
  destruct (all_arcs_wf c (variables c) Hwf) as (queue & Hq & Harcs); [done|].
  rewrite Hq in H. by eapply AC3_loop_lower.
Qed.

Lemma AC3_true_nonempty c c' x :
  AC3 c = (Ret true, c') → dom_of c x ≠ ∅ → dom_of c' x ≠ ∅.
Proof.
  unfold AC3, AC3_fuel. destruct (all_arcs c (variables c)); [|done..].
  apply AC3_loop_true_nonempty.
Qed.

Lemma AC3_false_emptied c c' :
  AC3 c = (Ret false, c') → ∃ x, dom_of c x ≠ ∅ ∧ dom_of c' x = ∅.
Proof.
  unfold AC3, AC3_fuel. destruct (all_arcs c (variables c)); [|done..].
  apply AC3_loop_false_emptied.
Qed.

(** ** Equivalent models *)

Lemma csp_equiv_refl c : csp_equiv c c.
Proof. done. Qed.

Lemma csp_equiv_sym c1 c2 : csp_equiv c1 c2 → csp_equiv c2 c1.
Proof. intros (? & ? & ?). by split_and!. Qed.

Lemma csp_equiv_trans c1 c2 c3 : csp_equiv c1 c2 → csp_equiv c2 c3 → csp_equiv c1 c3.
Proof. intros (? & ? & ?) (? & ? & ?). split_and!; congruence. Qed.

Lemma csp_equiv_lookup c1 c2 x :
  csp_equiv c1 c2 →
  match neighbors c1 !! x, neighbors c2 !! x with
  | Some ns1, Some ns2 => ∀ y, y ∈ ns1 ↔ y ∈ ns2
  | None, None => True
  | _, _ => False
  end.
Proof.
  intros (_ & _ & H).
  assert ((list_to_set <$> neighbors c1 : gmap string (gset string)) !! x
          = (list_to_set <$> neighbors c2 : gmap string (gset string)) !! x) as Hx
    by (by rewrite H).
  rewrite !lookup_fmap in Hx.
  destruct (neighbors c1 !! x) as [ns1|], (neighbors c2 !! x) as [ns2|];
    simplify_eq/=; [|done].
  intros y. rewrite <- (elem_of_list_to_set (C := gset string) y ns1).
  rewrite <- (elem_of_list_to_set (C := gset string) y ns2). by rewrite Hx.
Qed.

Lemma csp_equiv_nbrs_of c1 c2 x y :
  csp_equiv c1 c2 → y ∈ nbrs_of c1 x ↔ y ∈ nbrs_of c2 x.
Proof.
  intros H. apply (csp_equiv_lookup _ _ x) in H. unfold nbrs_of.
  destruct (neighbors c1 !! x), (neighbors c2 !! x); simpl; done.
Qed.

Lemma csp_equiv_dom_of c1 c2 x : csp_equiv c1 c2 → dom_of c1 x = dom_of c2 x.
Proof. intros (_ & H & _). unfold dom_of. by rewrite H. Qed.

Lemma csp_equiv_wf c1 c2 : csp_equiv c1 c2 → wf_csp c1 → wf_csp c2.
Proof.
  intros He [H1 H2]. pose proof He as (Hv & Hd & _). split.
  - rewrite <- Hv, <- Hd. eapply Forall_impl; [exact H1|]. intros x [? [ns Hns]].
    split; [done|]. pose proof (csp_equiv_lookup _ _ x He) as Hx. rewrite Hns in Hx.
    by destruct (neighbors c2 !! x).
  - intros x ns2 Hns2. simpl. apply Forall_forall. intros y Hy. rewrite <- Hv.
    pose proof (csp_equiv_lookup _ _ x He) as Hx. rewrite Hns2 in Hx.
    destruct (neighbors c1 !! x) as [ns1|] eqn:Hns1; [|done].
    specialize (H2 x ns1 Hns1). simpl in H2. rewrite Forall_forall in H2.
    apply H2. by apply Hx.
Qed.

Lemma csp_equiv_symmetric_neighbors c1 c2 :
  csp_equiv c1 c2 → symmetric_neighbors c1 → symmetric_neighbors c2.
Proof.
  intros He Hs x ns2 Hns2. apply Forall_forall. intros y Hy.
  apply (csp_equiv_nbrs_of _ _ _ _ He). apply symmetric_neighbors_elim; [done|].
  apply (csp_equiv_nbrs_of _ _ _ _ He). by rewrite (nbrs_of_Some _ _ _ Hns2).
Qed.

Lemma csp_equiv_set_domain c1 c2 x D :
  csp_equiv c1 c2 → csp_equiv (set_domain c1 x D) (set_domain c2 x D).
Proof. intros (? & ? & ?). split_and!; simpl; congruence. Qed.

Lemma csp_equiv_clone set_order c :
  is_set_order set_order → csp_equiv c (clone set_order c).
Proof.
  intros Hso. split_and!; [done..|]. simpl. rewrite <- map_fmap_compose.
  apply map_fmap_ext. intros x ns _. simpl.
  apply set_eq. intros y. rewrite !elem_of_list_to_set. symmetry. apply Hso.
Qed.

Lemma same_frame_csp_equiv c1 c2 c1' c2' :
  csp_equiv c1 c2 → same_frame c1 c1' → same_frame c2 c2' →
  domains c1' = domains c2' → csp_equiv c1' c2'.
Proof.
  intros (? & ? & ?) (? & ? & _) (? & ? & _) ?. split_and!; congruence.
Qed.

(** If one run of [AC3] reports consistency then so does every run on an
    equivalent model, and with the same domains. *)
Lemma AC3_true_unique c1 c2 F1 b2 F2 :
  wf_csp c1 → symmetric_neighbors c1 → csp_equiv c1 c2 →
  AC3 c1 = (Ret true, F1) → AC3 c2 = (Ret b2, F2) →
  b2 = true ∧ domains F1 = domains F2.
Proof.
  intros Hwf1 Hsym1 He H1 H2.
  pose proof (csp_equiv_wf _ _ He Hwf1) as Hwf2.
  pose proof (csp_equiv_symmetric_neighbors _ _ He Hsym1) as Hsym2.
  destruct (AC3_frame _ _ _ H1) as [Hf1 Hs1].
  destruct (AC3_frame _ _ _ H2) as [Hf2 Hs2].
  pose proof (AC3_true_arc_consistent _ _ Hsym1 H1) as Hac1.
  assert (∀ x, dom_of F1 x ⊆ dom_of F2 x) as H12.
  { eapply (AC3_lower F1 c2); [done..| | |exact H2].
    - intros a b Ha Hb. apply arc_consistent_elim; [done| |].
      + destruct Hf1 as (-> & _). destruct He as (-> & _). done.
      + rewrite (same_frame_nbrs_of _ _ _ Hf1). by apply (csp_equiv_nbrs_of _ _ _ _ He).
    - intros x. rewrite <- (csp_equiv_dom_of _ _ x He). apply Hs1. }
  assert (b2 = true) as ->.
  { destruct b2; [done|]. exfalso.
    destruct (AC3_false_emptied _ _ H2) as (x & Hx & Hx2).
    apply (AC3_true_nonempty _ _ x H1).
    - by rewrite (csp_equiv_dom_of _ _ x He).
    - specialize (H12 x). rewrite Hx2 in H12. set_solver. }
  split; [done|].
  pose proof (AC3_true_arc_consistent _ _ Hsym2 H2) as Hac2.
  assert (∀ x, dom_of F2 x ⊆ dom_of F1 x) as H21.
  { eapply (AC3_lower F2 c1); [done..| | |exact H1].
    - intros a b Ha Hb. apply arc_consistent_elim; [done| |].
      + destruct Hf2 as (-> & _). destruct He as (<- & _). done.
      + rewrite (same_frame_nbrs_of _ _ _ Hf2). by apply (csp_equiv_nbrs_of _ _ _ _ He).
    - intros x. rewrite (csp_equiv_dom_of _ _ x He). apply Hs2. }
  apply map_eq. intros x.
  destruct Hf1 as (_ & _ & Hk1). destruct Hf2 as (_ & _ & Hk2).
  specialize (Hk1 x). specialize (Hk2 x). destruct He as (_ & Hd & _).
  rewrite Hd in Hk1. specialize (H12 x). specialize (H21 x). unfold dom_of in H12, H21.
  destruct (domains F1 !! x) as [D1|] eqn:HD1, (domains F2 !! x) as [D2|] eqn:HD2.
  - f_equal. simpl in *. apply set_eq. intros y. split; [apply H12|apply H21].
  - exfalso. destruct Hk1 as [Hk1 _]. destruct Hk2 as [_ Hk2].
    destruct (Hk2 (Hk1 (mk_is_Some _ _ eq_refl))); done.
  - exfalso. destruct Hk1 as [_ Hk1]. destruct Hk2 as [Hk2 _].
    destruct (Hk1 (Hk2 (mk_is_Some _ _ eq_refl))); done.
  - done.
Qed.

(** The two runs return the same flag, and equivalent models when the
    flag is [True]. *)
Lemma AC3_equiv c1 c2 :
  wf_csp c1 → symmetric_neighbors c1 → csp_equiv c1 c2 →
  ∃ b F1 F2, AC3 c1 = (Ret b, F1) ∧ AC3 c2 = (Ret b, F2)
    ∧ (b = true → csp_equiv F1 F2).
Proof.
  intros Hwf1 Hsym1 He.
  pose proof (csp_equiv_wf _ _ He Hwf1) as Hwf2.
  pose proof (csp_equiv_symmetric_neighbors _ _ He Hsym1) as Hsym2.
  destruct (AC3_returns c1 Hwf1) as (b1 & F1 & H1).
  destruct (AC3_returns c2 Hwf2) as (b2 & F2 & H2).
  destruct b1.
  - destruct (AC3_true_unique _ _ _ _ _ Hwf1 Hsym1 He H1 H2) as [-> Hd].
    exists true, F1, F2. split_and!; [done..|]. intros _.
    eapply same_frame_csp_equiv; [exact He| | |exact Hd]; by eapply AC3_frame.
  - destruct b2.
    + destruct (AC3_true_unique _ _ _ _ _ Hwf2 Hsym2 (csp_equiv_sym _ _ He) H2 H1); done.
    + exists false, F1, F2. by split_and!.
Qed.

(** ** The search does not depend on the order of the neighbour sets *)

Lemma is_solved_ext c1 c2 : domains c1 = domains c2 → is_solved c1 = is_solved c2.
Proof. unfold is_solved. by intros ->. Qed.

Lemma select_unassigned_variable_ext c1 c2 :
  variables c1 = variables c2 → domains c1 = domains c2 →
  select_unassigned_variable c1 = select_unassigned_variable c2.
Proof.
  intros Hv Hd. unfold select_unassigned_variable. rewrite Hv.
  assert (∀ vars, unassigned_variables c1 vars = unassigned_variables c2 vars) as ->.
  { induction vars as [|v vars IH]; [done|]. cbn [unassigned_variables].
    by rewrite Hd, IH. }
  unfold domain_size. by rewrite Hd.
Qed.


Lemma select_unassigned_variable_wf c :
  wf_csp c → ∃ r, select_unassigned_variable c = Ret r.
Proof.
  intros [H _]. unfold select_unassigned_variable.
  rewrite unassigned_variables_filter; [by eexists|].
  eapply Forall_impl; [exact H|]. by intros x [? _].
Qed.

Section OrderIndependence.

Variables set_order1 set_order2 : list Var → list Var.
Hypothesis set_order1_spec : is_set_order set_order1.
Hypothesis set_order2_spec : is_set_order set_order2.

Lemma try_values_val_equiv rec1 rec2 c1 c2 var vals :
  wf_csp c1 → symmetric_neighbors c1 → csp_equiv c1 c2 →
  (∀ c1' c2', wf_csp c1' → symmetric_neighbors c1' → csp_equiv c1' c2' →
     search_equiv (rec1 c1') (rec2 c2')) →
  search_equiv (try_values_val set_order1 rec1 c1 var vals)
               (try_values_val set_order2 rec2 c2 var vals).
Proof.
  intros Hwf Hsym He Hrec. induction vals as [|v vals IH]; [done|].
  cbn [try_values_val].
  set (t1 := set_domain (clone set_order1 c1) var (py_set_of_str v)).
  set (t2 := set_domain (clone set_order2 c2) var (py_set_of_str v)).
  assert (wf_csp t1) as Hwf1 by (by apply wf_csp_set_domain, wf_csp_clone).
  assert (symmetric_neighbors t1) as Hsym1
    by (by apply symmetric_neighbors_set_domain, symmetric_neighbors_clone).
  assert (csp_equiv t1 t2) as He1.
  { apply csp_equiv_set_domain.
    eapply csp_equiv_trans; [apply csp_equiv_sym, csp_equiv_clone; exact set_order1_spec|].
    eapply csp_equiv_trans; [exact He|]. by apply csp_equiv_clone. }
  destruct (AC3_equiv t1 t2 Hwf1 Hsym1 He1) as (b & F1 & F2 & H1 & H2 & HF).
  rewrite H1, H2. destruct b; [|exact IH].
  destruct (AC3_frame _ _ _ H1) as [Hf _].
  specialize (Hrec F1 F2 (wf_csp_frame _ _ Hf Hwf1)
                (symmetric_neighbors_frame _ _ Hf Hsym1) (HF eq_refl)).
  destruct (rec1 F1) as [[s1|]|e1|], (rec2 F2) as [[s2|]|e2|]; done.
Qed.

Lemma search_fuel_equiv fuel : ∀ c1 c2,
  wf_csp c1 → symmetric_neighbors c1 → csp_equiv c1 c2 →
  search_equiv (search_fuel set_order1 fuel c1) (search_fuel set_order2 fuel c2).
Proof.
  induction fuel as [|fuel IH]; intros c1 c2 Hwf Hsym He; [done|].
  cbn [search_fuel]. pose proof He as (Hv & Hd & _).
  rewrite <- (is_solved_ext c1 c2 Hd).
  rewrite <- (select_unassigned_variable_ext c1 c2 Hv Hd), <- Hd.
  destruct (is_solved c1); [done|].
  destruct (select_unassigned_variable_wf c1 Hwf) as [[var|] Hsel]; rewrite Hsel; [|done].
  apply select_unassigned_variable_Some in Hsel as (_ & D & -> & _).
  by apply try_values_val_equiv.
Qed.

End OrderIndependence.

(** ** [solve] and [main_core] in terms of the search on values *)

Lemma AC3_ref_singleton c : AC3_ref 0 [c] = ((AC3 c).1, [(AC3 c).2]).
Proof. unfold AC3_ref. simpl. by destruct (AC3 c). Qed.

Lemma backtrack_singleton set_order c :
  ∃ res h', backtrack set_order 0 [c] = (res, h')
    ∧ deref h' res = search_fuel set_order (backtrack_bound c) c
    ∧ ∀ s, res = Ret (Some s) → is_Some (h' !! s).
Proof.
  unfold backtrack. simpl.
  destruct (backtrack_fuel set_order (backtrack_bound c) 0 [c]) as [res h'] eqn:H.
  exists res, h'. split; [done|].
  by destruct (backtrack_fuel_sound set_order _ [c] 0 c res h' eq_refl H) as (_ & ? & ?).
Qed.


Lemma main_core_unfold set_order c :
  main_core set_order c =
  let out := ["Parsed Sudoku puzzle and initialized CSP.";
              nl +:+ "Starting AC-3 algorithm..."] in
  match AC3 c with
  | (Ret false, _) => Ret (out ++ ["Sudoku puzzle has no solution."])
  | (Ret true, F) =>
      if is_solved F then
        grid ← print_solution F;
        Ret (out ++ [nl +:+ "Sudoku puzzle is solved by AC-3."] ++ grid)
      else
        let out := out ++ [nl +:+ "AC-3 completed. Puzzle is not fully solved. Applying backtracking..."] in
        match search_result set_order F with
        | Ret (Some s) =>
            grid ← print_solution s;
            Ret (out ++ [nl +:+ "Sudoku puzzle solved with backtracking:"] ++ grid)
        | Ret None => Ret (out ++ ["Sudoku puzzle has no solution."])
        | Raise e => Raise e
        | OutOfFuel => OutOfFuel
        end
  | (Raise e, _) => Raise e
  | (OutOfFuel, _) => OutOfFuel
  end.
Proof.
  unfold main_core. cbv zeta. rewrite AC3_ref_singleton.
  destruct (AC3 c) as [[[]|e|] F]; cbn [fst snd]; [|done..].
  change ([F] !! 0) with (Some F). cbv iota beta.
  destruct (is_solved F); [done|].
  destruct (backtrack_singleton set_order F) as (res & h' & -> & Hd & Hvalid).
  unfold search_result. rewrite <- Hd.
  destruct res as [[s|]|e|]; simpl; [|done..].
  destruct (Hvalid s eq_refl) as [cs ->]. done.
Qed.

(** ** Helper lemmas for the claims *)

Lemma AC3_conflict c c' xi xj v :
  xi ∈ variables c → xj ∈ nbrs_of c xi →
  domains c !! xi = Some {[v]} → dom_of c xj ⊆ {[v]} →
  AC3 c ≠ (Ret true, c').
Proof.
  intros Hi Hj Hdi Hdj. unfold AC3, AC3_fuel.
  destruct (all_arcs c (variables c)) as [queue|?|] eqn:Hq; [|done..].
  eapply AC3_loop_conflict; [|exact Hdi|exact Hdj]. by eapply all_arcs_elem.
Qed.

Lemma AC3_false_empty c c' :
  AC3 c = (Ret false, c') → ∃ x, domains c' !! x = Some ∅.
Proof.
  unfold AC3, AC3_fuel. destruct (all_arcs c (variables c)); [|done..].
  apply AC3_loop_false_empty.
Qed.

Lemma filter_split {A} (P : A → Prop) `{∀ x, Decision (P x)} (l : list A) : ∀ l1 v l2,
  filter P l = l1 ++ v :: l2 →
  ∃ pre post, l = pre ++ v :: post ∧ filter P pre = l1 ∧ filter P post = l2.
Proof.
  induction l as [|x l IH]; intros l1 v l2 Hf.
  - by destruct l1.
  - rewrite filter_cons in Hf. destruct (decide (P x)) as [Hx|Hx].
    + destruct l1 as [|y l1]; simpl in Hf; injection Hf as -> Hf.
      * exists [], l. by split_and!.
      * destruct (IH _ _ _ Hf) as (pre & post & -> & <- & <-).
        exists (y :: pre), post. split_and!; [done| |done].
        rewrite filter_cons. by rewrite decide_True.
    + destruct (IH _ _ _ Hf) as (pre & post & -> & <- & <-).
      exists (x :: pre), post. split_and!; [done| |done].
      rewrite filter_cons. by rewrite decide_False.
Qed.

Lemma domains_shrink_intro c c' :
  same_frame c c' → (∀ x, dom_of c' x ⊆ dom_of c x) → domains_shrink c c'.
Proof.
  intros (_ & _ & Hk) Hs x D' Hx. simpl. split.
  - apply Hk. by rewrite Hx.
  - specialize (Hs x). by rewrite (dom_of_Some _ _ _ Hx) in Hs.
Qed.

Lemma domains_shrink_size c c' x :
  domains_shrink c c' → size (dom_of c' x) ≤ size (dom_of c x).
Proof.
  intros H. unfold dom_of at 1. destruct (domains c' !! x) as [D'|] eqn:Hx.
  - apply subseteq_size. by apply (H x D' Hx).
  - cbn [default]. rewrite size_empty. lia.
Qed.

(** On one-character tokens the loader accepts exactly the digits
    [1] .. [9], the dot and [0]. *)
Lemma parse_cell_one_char doms var a :
  let val := String a EmptyString in
  match parse_cell doms var val with
  | Ret doms' =>
      (val ∈ str_chars "123456789.0")
      ∧ doms' = (if decide (val ∈ str_chars "123456789")
                 then <[var := {[val]}]> doms else doms)
  | Raise e =>
      (val ∉ str_chars "123456789.0")
      ∧ e = ValueError ("Invalid character '" +:+ val +:+ "' in input.")
  | OutOfFuel => False
  end.
Proof.
  cbv zeta. unfold parse_cell. rewrite py_set_of_str_single.
  destruct a as [[] [] [] [] [] [] [] []];
    repeat match goal with
    | |- context [py_in ?s ?t] =>
        let r := eval vm_compute in (py_in s t) in change (py_in s t) with r
    end; cbv iota;
    (split; [compute_done|]);
    first [ reflexivity
          | by rewrite decide_True by compute_done
          | by rewrite decide_False by compute_done ].
Qed.

Lemma parse_sudoku_line_count set_order lines :
  length lines ≠ 9 →
  parse_sudoku set_order lines = Raise (ValueError "Input file must have exactly 9 lines.").
Proof. intros H. unfold parse_sudoku. by rewrite decide_True. Qed.


(** ** Further facts about the embedding *)

(** [py_sorted] sorts. *)
Lemma py_sorted_Sorted D : Sorted str_le (py_sorted D).
Proof.
  apply Sorted_merge_sort. intros a b. apply String.leb_total.
Qed.

(** [backtrack] never exhausts its recursion budget. *)
Lemma backtrack_no_fuel set_order csp (h : list CSP) :
  (backtrack set_order csp h).1 ≠ OutOfFuel.
Proof.
  unfold backtrack. destruct (h !! csp) as [c|] eqn:Hc; [|done].
  destruct (backtrack_fuel set_order (backtrack_bound c) csp h) as [res h'] eqn:H.
  destruct (backtrack_fuel_sound set_order _ h csp c res h' Hc H) as (_ & Hd & _).
  cbn [fst]. intros ->. cbn [deref] in Hd. symmetry in Hd.
  eapply search_fuel_enough; [|exact Hd]. unfold backtrack_bound. lia.
Qed.

(** A larger recursion budget does not change the result of
    [backtrack]. *)
Lemma try_values_fuel_mono set_order rec1 rec2 csp var vals :
  (∀ r (h : list CSP), (rec1 r h).1 ≠ OutOfFuel → rec2 r h = rec1 r h) →
  ∀ h : list CSP,
    (try_values set_order rec1 csp var vals h).1 ≠ OutOfFuel →
    try_values set_order rec2 csp var vals h = try_values set_order rec1 csp var vals h.
Proof.
  intros Hrec. induction vals as [|value vals IH]; intros h Hne; [done|].
  cbn [try_values] in *.
  destruct (deepcopy set_order csp h) as [[new_csp| |] h1]; [|done..].
  cbv zeta in *.
  destruct (AC3_ref new_csp _) as [[[]| |] h3]; [| |done..].
  - specialize (Hrec new_csp h3).
    destruct (rec1 new_csp h3) as [[[result|]| |] h4] eqn:H1;
      rewrite Hrec by (by cbn); [done| |done|done].
    by apply IH.
  - by apply IH.
Qed.

Lemma backtrack_fuel_mono set_order fuel : ∀ fuel' csp (h : list CSP),
  fuel ≤ fuel' →
  (backtrack_fuel set_order fuel csp h).1 ≠ OutOfFuel →
  backtrack_fuel set_order fuel' csp h = backtrack_fuel set_order fuel csp h.
Proof.
  induction fuel as [|fuel IH]; intros fuel' csp h Hle Hne; [done|].
  destruct fuel' as [|fuel']; [lia|]. cbn [backtrack_fuel] in *.
  destruct (h !! csp) as [c|]; [|done].
  destruct (is_solved c); [done|].
  destruct (select_unassigned_variable c) as [[var|]| |]; [|done..].
  destruct (domains c !! var) as [D|]; [|done].
  apply try_values_fuel_mono; [|done].
  intros r h0 Hr. apply IH; [lia|done].
Qed.

Lemma backtrack_fuel_enough set_order fuel csp (h : list CSP) c :
  h !! csp = Some c → backtrack_bound c ≤ fuel →
  backtrack_fuel set_order fuel csp h = backtrack set_order csp h.
Proof.
  intros Hc Hle. pose proof (backtrack_no_fuel set_order csp h) as Hne.
  unfold backtrack in *. rewrite Hc in *. by apply backtrack_fuel_mono.
Qed.

(** The loader raises nothing but [ValueError]. *)
Lemma parse_parts_result row parts : ∀ j doms,
  match parse_parts row j parts doms with
  | Ret _ => True
  | Raise e => ∃ msg, e = ValueError msg
  | OutOfFuel => False
  end.
Proof.
  induction parts as [|val parts IH]; intros j doms; [done|].
  cbn [parse_parts]. unfold parse_cell.
  destruct (py_in val "123456789"); [apply IH|].
  destruct (py_in val ".0"); [apply IH|]. simpl. by eexists.
Qed.

(** A line that does not split into nine tokens makes the loader raise
    [ValueError], unless an earlier line already did. *)
Lemma parse_lines_token_count line lines : ∀ i doms,
  line ∈ lines → length (py_split (py_strip line)) ≠ 9 →
  ∃ msg, parse_lines i lines doms = Raise (ValueError msg).
Proof.
  induction lines as [|l lines IH]; intros i doms Hin Hlen.
  - by apply elem_of_nil in Hin.
  - cbn [parse_lines].
    destruct (decide (length (py_split (py_strip l)) ≠ 9)) as [|Hl]; [by eexists|].
    apply elem_of_cons in Hin as [->|Hin]; [done|].
    pose proof (parse_parts_result (default "" (rows !! i)) (py_split (py_strip l)) 0 doms) as Hp.
    destruct (parse_parts _ 0 _ doms) as [doms'|e|]; simpl.
    + by apply IH.
    + destruct Hp as [msg ->]. by eexists.
    + done.
Qed.

Lemma parse_sudoku_token_count set_order line lines :
  line ∈ lines → length (py_split (py_strip line)) ≠ 9 →
  ∃ msg, parse_sudoku set_order lines = Raise (ValueError msg).
Proof.
  intros Hin Hlen. unfold parse_sudoku.
  destruct (decide (length lines ≠ 9)); [by eexists|].
  destruct (parse_lines_token_count line lines 0
              (list_to_map ((λ var, (var, py_set_of_str "123456789"))
                 <$> (r ← rows; (λ c, r +:+ c) <$> cols))) Hin Hlen) as [msg ->].
  by eexists.
Qed.

(** Every domain of a model built by the loader holds one-character
    strings only. *)
Lemma parse_cell_single_char doms var val doms' :
  map_Forall (λ _ D, set_Forall (λ v, String.length v = 1) D) doms →
  parse_cell doms var val = Ret doms' →
  map_Forall (λ _ D, set_Forall (λ v, String.length v = 1) D) doms'.
Proof.
  intros Hd. unfold parse_cell.
  destruct (py_in val "123456789").
  - intros ?; simplify_eq. apply map_Forall_insert_2; [|done].
    intros v. apply elem_of_py_set_of_str.
  - destruct (py_in val ".0"); [|done]. by intros ?; simplify_eq.
Qed.

Lemma parse_parts_single_char row parts : ∀ j doms doms',
  map_Forall (λ _ D, set_Forall (λ v, String.length v = 1) D) doms →
  parse_parts row j parts doms = Ret doms' →
  map_Forall (λ _ D, set_Forall (λ v, String.length v = 1) D) doms'.
Proof.
  induction parts as [|val parts IH]; intros j doms doms' Hd H.
  - cbn in H. by simplify_eq.
  - cbn [parse_parts] in H.
    destruct (parse_cell doms _ val) as [d1|e|] eqn:Hc; [|done..].
    eapply IH; [|exact H]. by eapply parse_cell_single_char.
Qed.

Lemma parse_lines_single_char lines : ∀ i doms doms',
  map_Forall (λ _ D, set_Forall (λ v, String.length v = 1) D) doms →
  parse_lines i lines doms = Ret doms' →
  map_Forall (λ _ D, set_Forall (λ v, String.length v = 1) D) doms'.
Proof.
  induction lines as [|l lines IH]; intros i doms doms' Hd H.
  - cbn in H. by simplify_eq.
  - cbn [parse_lines] in H.
    destruct (decide (length (py_split (py_strip l)) ≠ 9)); [done|].
    destruct (parse_parts _ 0 _ doms) as [d1|e|] eqn:Hp; [|done..].
    eapply IH; [|exact H]. by eapply parse_parts_single_char.
Qed.

Lemma parse_sudoku_single_char_values set_order lines c :
  parse_sudoku set_order lines = Ret c → single_char_values c.
Proof.
  unfold parse_sudoku.
  generalize (list_to_map ((λ var, (var, set_order (remove_dups (cell_neighbors var))))
                <$> (r ← rows; (λ c, r +:+ c) <$> cols)) : gmap string (list string)).
  intros nbrs.
  assert (map_Forall (λ _ D, set_Forall (λ v, String.length v = 1) D)
            (list_to_map ((λ var, (var, py_set_of_str "123456789"))
               <$> (r ← rows; (λ c, r +:+ c) <$> cols)) : gmap string (gset string))) as Hinit.
  { intros x D HD. apply elem_of_list_to_map_2 in HD.
    apply list_elem_of_fmap in HD as (var & ? & _). simplify_eq.
    intros v. apply elem_of_py_set_of_str. }
  revert Hinit.
  generalize (list_to_map ((λ var, (var, py_set_of_str "123456789"))
                <$> (r ← rows; (λ c, r +:+ c) <$> cols)) : gmap string (gset string)).
  generalize (r ← rows; (λ c, r +:+ c) <$> cols).
  intros vars doms Hinit.
  destruct (decide (length lines ≠ 9)); [done|].
  destruct (parse_lines 0 lines doms) as [doms'|e|] eqn:Hp; [|done..].
  cbn [mbind res_bind]. intros [= <-]. unfold single_char_values. cbn [domains].
  by eapply parse_lines_single_char.
Qed.
(** * The claims *)






(** C3, as amended. The model stores no predicate, and [Revise] applies
    the fixed rule [y != x]: on an arc whose two domains exist it does
    what the specification's [Revise] does for the predicate "the values
    differ". *)
Theorem Revise_hardcodes_values_differ c xi xj Di Dj :
  domains c !! xi = Some Di → domains c !! xj = Some Dj →
  Revise c xi xj =
    (Ret (Revise_spec values_differ Di Dj).1,
     if (Revise_spec values_differ Di Dj).1
     then set_domain c xi (Revise_spec values_differ Di Dj).2 else c).
Proof.
  intros Hi Hj. unfold Revise, Revise_spec. rewrite Hi, Hj. cbn [fst snd].
  assert (filter (λ x, ∃ y, y ∈ Dj ∧ values_differ x y = true) Di
          = filter (λ x, has_support Dj x) Di) as ->.
  { apply set_eq. intros x. rewrite !elem_of_filter. unfold has_support, set_Exists, values_differ.
    split; intros [(y & Hy & Hne) Hx]; (split; [exists y; split; [done|]|done]).
    - apply bool_decide_eq_true in Hne. congruence.
    - apply bool_decide_eq_true. congruence. }
  rewrite <- to_remove_difference.
  destruct (decide (Di = ∅)) as [->|Hne].
  { rewrite bool_decide_eq_false_2; [done|]. intros H. apply H. set_solver. }
  destruct (decide (filter (λ x, ¬ has_support Dj x) Di = ∅)) as [He|Hr].
  - rewrite bool_decide_eq_false_2; [done|]. intros H. apply H. rewrite He. set_solver.
  - rewrite bool_decide_eq_true_2; [done|]. intros H. apply Hr.
    apply set_eq. intros x. split; [|set_solver]. intros Hx.
    assert (x ∈ Di) as HxD by (by apply elem_of_filter in Hx as [_ ?]).
    rewrite <- H in HxD. set_solver.
Qed.

Lemma Revise_hardcodes_values_differ_witness :
  Revise ex_two "a" "b" = (Ret true, set_domain ex_two "a" {["2"]}).
Proof.
  rewrite (Revise_hardcodes_values_differ ex_two "a" "b" {["1"; "2"]} {["1"]}).
  - vm_compute. reflexivity.
  - reflexivity.
  - reflexivity.
Defined.

(** C3, as stated. [Revise] does not consult a predicate of the model:
    for the predicate that is always satisfied the specification's
    [Revise] removes nothing on the arc [(a, b)], the code removes
    ["1"]. *)
Lemma Revise_ignores_predicate :
  (Revise_spec always_satisfied (dom_of ex_two "a") (dom_of ex_two "b")).1 = false
  ∧ (Revise ex_two "a" "b").1 = Ret true.
Proof. split; vm_compute; reflexivity. Qed.

(** C4. For every well-formed model in which a variable [xi] and one of
    its neighbours [xj] both have the domain [{v}], [AC3] returns the
    ordinary value [False] (no exception, no exhausted budget), some
    domain of the resulting model is empty, and [main] prints that there
    is no solution without announcing or running [backtrack]. *)
Theorem AC3_detects_equal_singletons set_order c xi xj v :
  wf_csp c →
  xi ∈ variables c → xj ∈ nbrs_of c xi →
  domains c !! xi = Some {[v]} → domains c !! xj = Some {[v]} →
  ∃ c', AC3 c = (Ret false, c')
    ∧ (∃ x, domains c' !! x = Some ∅)
    ∧ main_core set_order c =
        Ret ["Parsed Sudoku puzzle and initialized CSP.";
             nl +:+ "Starting AC-3 algorithm...";
             "Sudoku puzzle has no solution."].
Proof.
  intros Hwf Hi Hj Hdi Hdj.
  destruct (AC3_returns c Hwf) as (b & c' & H).
  destruct b.
  { exfalso. eapply (AC3_conflict c c' xi xj v); [done..| |done].
    by rewrite (dom_of_Some _ _ _ Hdj). }
  exists c'. split_and!; [done|by eapply AC3_false_empty|].
  rewrite main_core_unfold, H. reflexivity.
Qed.

Lemma AC3_detects_equal_singletons_witness :
  ∃ c', AC3 ex_conflict = (Ret false, c')
    ∧ (∃ x, domains c' !! x = Some ∅)
    ∧ main_core id ex_conflict =
        Ret ["Parsed Sudoku puzzle and initialized CSP.";
             nl +:+ "Starting AC-3 algorithm...";
             "Sudoku puzzle has no solution."].
Proof.
  apply (AC3_detects_equal_singletons id ex_conflict "a" "b" "1").
  - compute_done.
  - compute_done.
  - compute_done.
  - reflexivity.
  - reflexivity.
Defined.

(** Scenario C of the specification on a Sudoku grid: two clues [5] in
    row [A]. *)
Example main_row_clash :
  main id puzzle_row_clash =
    Ret ["Parsed Sudoku puzzle and initialized CSP.";
         nl +:+ "Starting AC-3 algorithm...";
         "Sudoku puzzle has no solution."].
Proof. vm_compute. reflexivity. Qed.

(** C5, as amended. Domains never grow: a call of [Revise] and a run of
    [AC3] leave every domain a subset of what it was, and so does the
    clone-and-collapse step of [backtrack] when the value tried is a
    one-character string; a subset is no larger. *)
Theorem domains_monotone :
  (∀ c xi xj r c', Revise c xi xj = (r, c') → domains_shrink c c')
  ∧ (∀ c r c', AC3 c = (r, c') → domains_shrink c c')
  ∧ (∀ set_order c var D value,
       domains c !! var = Some D → value ∈ D → String.length value = 1 →
       domains_shrink c (set_domain (clone set_order c) var (py_set_of_str value)))
  ∧ (∀ c c' x, domains_shrink c c' → size (dom_of c' x) ≤ size (dom_of c x)).
Proof.
  split_and!.
  - intros c xi xj r c' H. destruct (Revise_frame _ _ _ _ _ H). by apply domains_shrink_intro.
  - intros c r c' H. destruct (AC3_frame _ _ _ H). by apply domains_shrink_intro.
  - intros set_order c var D value HD Hv Hlen x D' Hx. simpl in *.
    rewrite py_set_of_str_length_1 in Hx by done.
    apply lookup_insert_Some in Hx as [(<- & <-)|(Hne & Hx)].
    + split; [by rewrite HD|]. rewrite (dom_of_Some _ _ _ HD). set_solver.
    + split; [by rewrite Hx|]. by rewrite (dom_of_Some _ _ _ Hx).
  - intros c c' x. apply domains_shrink_size.
Qed.

Lemma domains_monotone_witness :
  domains_shrink ex_two (Revise ex_two "a" "b").2
  ∧ domains_shrink ex_search (AC3 ex_search).2
  ∧ domains_shrink ex_search (set_domain (clone id ex_search) "a" (py_set_of_str "1"))
  ∧ size (dom_of (Revise ex_two "a" "b").2 "a") ≤ size (dom_of ex_two "a").
Proof.
  destruct domains_monotone as (HR & HA & HC & HS).
  split_and!.
  - apply (HR ex_two "a" "b" (Revise ex_two "a" "b").1). vm_compute. reflexivity.
  - apply (HA ex_search (AC3 ex_search).1). vm_compute. reflexivity.
  - apply (HC id ex_search "a" {["1"; "2"]} "1").
    + reflexivity.
    + compute_done.
    + reflexivity.
  - apply HS. apply (HR ex_two "a" "b" (Revise ex_two "a" "b").1). vm_compute. reflexivity.
Defined.

(** C5, as stated. With the two-character value ["ab"] the collapse
    [set(value)] puts the characters ["a"] and ["b"] into the domain,
    neither of which was in it, and [backtrack] returns a model that
    assigns ["a"]. *)
Lemma collapse_adds_values :
  select_unassigned_variable ex_multichar = Ret (Some "a")
  ∧ py_sorted (dom_of ex_multichar "a") = ["ab"; "cd"]
  ∧ ¬ domains_shrink ex_multichar
        (set_domain (clone id ex_multichar) "a" (py_set_of_str "ab"))
  ∧ (backtrack id 0 [ex_multichar]).1 = Ret (Some 2)
  ∧ (backtrack id 0 [ex_multichar]).2 !! 2
    = Some (set_domain ex_multichar "a" {["a"]}).
Proof.
  split_and!; try (vm_compute; reflexivity). compute_done.
Qed.

(** C6. [AC3] terminates on every model: the budget [AC3_bound] derived
    from the number of arcs, the largest neighbour set and the number of
    values in the domains is never exhausted, and a larger budget gives
    the same result.  A step either shortens the queue or removes a
    value, and only then appends arcs. *)
Theorem AC3_terminates c fuel :
  AC3_bound c ≤ fuel →
  (AC3 c).1 ≠ OutOfFuel ∧ AC3_fuel fuel c = AC3 c.
Proof.
  intros Hle. split; [apply AC3_no_fuel|].
  pose proof (AC3_no_fuel c) as Hnf. unfold AC3, AC3_fuel in *.
  destruct (all_arcs c (variables c)) as [queue|e|]; [|done..].
  by apply AC3_loop_fuel_mono.
Qed.

Lemma AC3_terminates_witness :
  (AC3 ex_pigeon).1 ≠ OutOfFuel ∧ AC3_fuel 100 ex_pigeon = AC3 ex_pigeon.
Proof.
  apply (AC3_terminates ex_pigeon 100). vm_compute. lia.
Defined.



(** C8. [select_unassigned_variable] returns a variable whose domain has
    more than one value and is smallest among those, the first such in
    the order of [csp.variables]; it returns [None] exactly when no
    variable has more than one value.  It returns whenever every
    variable has a domain. *)
Theorem select_unassigned_variable_spec c :
  (Forall (λ v, is_Some (domains c !! v)) (variables c) →
   ∃ r, select_unassigned_variable c = Ret r)
  ∧ ∀ r, select_unassigned_variable c = Ret r →
      match r with
      | None => Forall (λ w, domain_size c w ≤ 1) (variables c)
      | Some var =>
          1 < domain_size c var
          ∧ ∃ pre post, variables c = pre ++ var :: post
              ∧ Forall (λ w, 1 < domain_size c w → domain_size c var < domain_size c w) pre
              ∧ Forall (λ w, 1 < domain_size c w → domain_size c var ≤ domain_size c w) post
      end.
Proof.
  split.
  - intros H. unfold select_unassigned_variable.
    rewrite unassigned_variables_filter by done. by eexists.
  - intros r Hr. apply select_unassigned_variable_Ret in Hr.
    pose proof (py_min_spec (domain_size c)
                  (filter (λ v, 1 < domain_size c v) (variables c))) as Hs.
    rewrite Hr in Hs. destruct r as [var|].
    + destruct Hs as (l1 & l2 & Heq & H1 & H2).
      destruct (filter_split _ _ _ _ _ Heq) as (pre & post & Hv & <- & <-).
      split.
      * assert (var ∈ filter (λ v, 1 < domain_size c v) (variables c)) as Hin
          by (rewrite Heq; set_solver).
        by apply list_elem_of_filter in Hin as [? _].
      * exists pre, post. split_and!; [done| |].
        -- apply Forall_forall. intros w Hw Hsz. rewrite Forall_forall in H1.
           apply H1. by apply list_elem_of_filter.
        -- apply Forall_forall. intros w Hw Hsz. rewrite Forall_forall in H2.
           apply H2. by apply list_elem_of_filter.
    + apply Forall_forall. intros w Hw.
      destruct (decide (domain_size c w ≤ 1)) as [|Hgt]; [done|]. exfalso.
      assert (w ∈ filter (λ v, 1 < domain_size c v) (variables c)) as Hin
        by (apply list_elem_of_filter; split; [lia|done]).
      rewrite Hs in Hin. by apply elem_of_nil in Hin.
Qed.

Lemma select_unassigned_variable_spec_witness :
  (∃ r, select_unassigned_variable ex_search = Ret r)
  ∧ 1 < domain_size ex_search "a".
Proof.
  destruct (select_unassigned_variable_spec ex_search) as [Hret Hspec]. split.
  - apply Hret. compute_done.
  - apply (Hspec (Some "a")). vm_compute. reflexivity.
Defined.

(** C9. A call of [backtrack] never changes a model that was in the
    store before the call, in particular not the model it is given:
    whatever the call returns, [False] included, every earlier reference
    still points to the same model. *)
Theorem backtrack_preserves_store set_order csp (h : list CSP) res h' :
  backtrack set_order csp h = (res, h') →
  ∀ r c, h !! r = Some c → h' !! r = Some c.
Proof.
  intros H r c Hr. eapply prefix_lookup_Some; [exact Hr|].
  by eapply backtrack_prefix.
Qed.

Lemma backtrack_preserves_store_witness :
  (backtrack id 0 [ex_pigeon]).1 = Ret None
  ∧ (backtrack id 0 [ex_pigeon]).2 !! 0 = Some ex_pigeon.
Proof.
  split; [vm_compute; reflexivity|].
  apply (backtrack_preserves_store id 0 [ex_pigeon] (backtrack id 0 [ex_pigeon]).1).
  - by destruct (backtrack id 0 [ex_pigeon]).
  - reflexivity.
Defined.

(** C10, on the failing input. The file has nine lines of nine tokens
    and its first token is the two-character string [12]; it is a
    substring of ["123456789"], so [parse_sudoku] raises nothing and
    gives cell [A1] the domain [{"1", "2"}]. *)
Theorem parse_sudoku_accepts_two_char_token :
  ∃ c, parse_sudoku id puzzle_two_char_token = Ret c
       ∧ domains c !! "A1" = Some {["1"; "2"]}.
Proof.
  assert (match parse_sudoku id puzzle_two_char_token with
          | Ret c => domains c !! "A1"
          | _ => None
          end = Some {["1"; "2"]}) as H by (vm_compute; reflexivity).
  destruct (parse_sudoku id puzzle_two_char_token) as [c|e|]; [|done..].
  by exists c.
Qed.

(** * Further properties *)

(** ** [AC3] on arc-consistent models *)

Lemma all_arcs_members c vars queue xi xj :
  all_arcs c vars = Ret queue → (xi, xj) ∈ queue → xi ∈ vars ∧ xj ∈ nbrs_of c xi.
Proof.
  revert queue. induction vars as [|v vars IH]; intros queue H Hin.
  - cbn in H. simplify_eq. by apply elem_of_nil in Hin.
  - cbn [all_arcs] in H. destruct (neighbors c !! v) as [ns|] eqn:Hv; [|done].
    destruct (all_arcs c vars) as [q| |]; [|done..]. cbn in H. simplify_eq.
    apply elem_of_app in Hin as [Hin|Hin].
    + apply list_elem_of_fmap in Hin as (y & ? & Hy). simplify_eq.
      split; [by left|]. by rewrite (nbrs_of_Some _ _ _ Hv).
    + destruct (IH q eq_refl Hin). split; [by right|done].
Qed.



(** ** [AC3] and solutions *)

Lemma dom_of_assignment_model σ c x :
  dom_of (assignment_model σ c) x
  = if decide (is_Some (domains c !! x)) then {[σ x]} else ∅.
Proof.
  unfold dom_of, assignment_model. simpl. rewrite map_lookup_imap.
  destruct (domains c !! x) as [D|]; cbn [default mbind option_bind from_option].
  - destruct (decide (is_Some (Some D))) as [|Hn]; [done|]. by destruct Hn.
  - destruct (decide (is_Some (@None (gset string)))) as [[? ?]|]; done.
Qed.

Lemma is_solution_elim_dom σ c x D :
  is_solution σ c → domains c !! x = Some D → σ x ∈ D.
Proof. intros [H _] Hx. by apply (H x D). Qed.

Lemma is_solution_elim_arc σ c xi xj :
  is_solution σ c → xi ∈ variables c → xj ∈ nbrs_of c xi → σ xi ≠ σ xj.
Proof.
  intros [_ H] Hi Hj. rewrite Forall_forall in H. specialize (H xi Hi).
  rewrite Forall_forall in H. by apply H.
Qed.

Lemma assignment_model_below σ c : is_solution σ c → below (assignment_model σ c) c.
Proof.
  intros Hs x. rewrite dom_of_assignment_model.
  destruct (decide (is_Some (domains c !! x))) as [[D HD]|]; [|set_solver].
  rewrite (dom_of_Some _ _ _ HD). apply singleton_subseteq_l.
  by eapply is_solution_elim_dom.
Qed.

Lemma assignment_model_arc_ok σ c a b :
  wf_csp c → is_solution σ c → a ∈ variables c → b ∈ nbrs_of c a →
  arc_ok (assignment_model σ c) a b.
Proof.
  intros Hwf Hs Ha Hb x. rewrite !dom_of_assignment_model.
  destruct (decide (is_Some (domains c !! a))); [|set_solver].
  intros ->%elem_of_singleton. exists (σ b). split.
  - rewrite decide_True; [set_solver|].
    by destruct (wf_csp_variable c b Hwf (wf_csp_neighbor c a b Hwf Hb)).
  - intros Heq. by eapply (is_solution_elim_arc σ c a b).
Qed.

Lemma below_is_solution σ c c' :
  same_frame c c' → is_solution σ c → below (assignment_model σ c) c' →
  is_solution σ c'.
Proof.
  intros (Hv & Hn & Hk) Hs Hb. split.
  - intros x D' Hx. specialize (Hb x). rewrite dom_of_assignment_model in Hb.
    rewrite decide_True in Hb by (apply Hk; by rewrite Hx).
    rewrite (dom_of_Some _ _ _ Hx) in Hb. set_solver.
  - destruct Hs as [_ Hs]. unfold nbrs_of. by rewrite Hv, Hn.
Qed.

Lemma AC3_solution σ c :
  wf_csp c → symmetric_neighbors c → is_solution σ c →
  ∃ c', AC3 c = (Ret true, c') ∧ is_solution σ c'.
Proof.
  intros Hwf Hsym Hs. destruct (AC3_returns c Hwf) as (b & c' & H).
  destruct (AC3_frame _ _ _ H) as [Hf _].
  assert (below (assignment_model σ c) c') as Hb.
  { unfold below. eapply (AC3_lower (assignment_model σ c) c (Ret b) c'); [done..| | |exact H].
    - intros a b0 Ha Hb0. by apply assignment_model_arc_ok.
    - by apply assignment_model_below. }
  destruct b.
  - exists c'. split; [done|]. by eapply below_is_solution.
  - exfalso. destruct (AC3_false_emptied _ _ H) as (x & Hx & Hx').
    specialize (Hb x). rewrite dom_of_assignment_model, Hx' in Hb.
    destruct (decide (is_Some (domains c !! x))) as [|Hn]; [set_solver|].
    apply Hx. unfold dom_of. destruct (domains c !! x); [|done]. by destruct Hn.
Qed.

(** ** Invariants of the search *)

Section BacktrackingInvariants.

Variable set_order : list Var → list Var.

(** A property of models that every trial keeps, from the model handed
    to the search to the model handed to the recursive call, holds for
    the model that the search returns; that model is solved. *)
Lemma try_values_val_invariant (Inv : CSP → Prop) (P : CSP → Prop) rec c var vals s :
  (∀ v c', v ∈ vals →
     AC3 (set_domain (clone set_order c) var (py_set_of_str v)) = (Ret true, c') →
     Inv c') →
  (∀ c' s, Inv c' → rec c' = Ret (Some s) → P s) →
  try_values_val set_order rec c var vals = Ret (Some s) → P s.
Proof.
  intros Hstep Hrec. induction vals as [|v vals IH]; [done|].
  cbn [try_values_val].
  destruct (AC3 _) as [[[]|e|] c'] eqn:HA; [| |done..].
  - destruct (rec c') as [[s'|]|?|] eqn:Hr; [| |done..].
    + intros ?; simplify_eq. eapply Hrec; [|exact Hr].
      eapply Hstep; [by left|exact HA].
    + apply IH. intros v' c'' Hv'. apply Hstep. by right.
  - apply IH. intros v' c'' Hv'. apply Hstep. by right.
Qed.

Lemma search_fuel_invariant (Inv : CSP → Prop) :
  (∀ c var D v c', Inv c →
     select_unassigned_variable c = Ret (Some var) →
     domains c !! var = Some D → v ∈ D →
     AC3 (set_domain (clone set_order c) var (py_set_of_str v)) = (Ret true, c') →
     Inv c') →
  ∀ fuel c s, Inv c → search_fuel set_order fuel c = Ret (Some s) →
    Inv s ∧ is_solved s = true.
Proof.
  intros Hstep. induction fuel as [|fuel IH]; intros c s HI H; [done|].
  cbn [search_fuel] in H. destruct (is_solved c) eqn:Hsol; [by simplify_eq|].
  destruct (select_unassigned_variable c) as [[var|]|e|] eqn:Hsel; [|done..].
  destruct (domains c !! var) as [D|] eqn:HD; [|done].
  eapply (try_values_val_invariant Inv (λ s, Inv s ∧ is_solved s = true));
    [| |exact H].
  - intros v c' Hv HA. eapply Hstep; [exact HI|exact Hsel|exact HD| |exact HA].
    by apply py_sorted_elem.
  - intros c' s' HI' Hr. by eapply IH.
Qed.

Hypothesis set_order_spec : is_set_order set_order.

(** The search raises nothing on a well-formed model. *)
Lemma search_fuel_no_raise fuel c e :
  wf_csp c → symmetric_neighbors c → search_fuel set_order fuel c ≠ Raise e.
Proof.
  intros Hwf Hsym H.
  pose proof (search_fuel_equiv set_order set_order set_order_spec set_order_spec
                fuel c c Hwf Hsym (csp_equiv_refl c)) as He.
  by rewrite H in He.
Qed.

Lemma search_inv_refl c : wf_csp c → symmetric_neighbors c → search_inv c c.
Proof. intros. by split_and!. Qed.

Lemma search_inv_step c0 c var D v c' :
  search_inv c0 c → domains c !! var = Some D →
  AC3 (set_domain (clone set_order c) var (py_set_of_str v)) = (Ret true, c') →
  search_inv c0 c' ∧ arc_consistent c'.
Proof.
  intros (Hv & Hk & Hn & Hwf & Hsym) HD HA.
  destruct (AC3_frame _ _ _ HA) as [(Hv' & Hn' & Hk') _].
  assert (wf_csp (set_domain (clone set_order c) var (py_set_of_str v))) as Hwft
    by (by apply wf_csp_set_domain, wf_csp_clone).
  assert (symmetric_neighbors (set_domain (clone set_order c) var (py_set_of_str v))) as Hsymt
    by (by apply symmetric_neighbors_set_domain, symmetric_neighbors_clone).
  split; [split_and!|].
  - by rewrite Hv'.
  - intros x. rewrite Hk', <- Hk. simpl. rewrite lookup_insert_is_Some.
    destruct (decide (var = x)) as [<-|]; [|naive_solver].
    split; [by rewrite HD|]. by left.
  - intros x y. unfold nbrs_of at 1. rewrite Hn'. rewrite <- Hn.
    apply (nbrs_of_clone set_order set_order_spec c).
  - by eapply wf_csp_frame.
  - by eapply symmetric_neighbors_frame.
  - by eapply AC3_true_arc_consistent.
Qed.

End BacktrackingInvariants.

(** ** Completeness of the search *)

Section BacktrackingComplete.

Variable set_order : list Var → list Var.
Hypothesis set_order_spec : is_set_order set_order.

Lemma is_solution_collapse σ c var D :
  is_solution σ c → domains c !! var = Some D → String.length (σ var) = 1 →
  is_solution σ (set_domain (clone set_order c) var (py_set_of_str (σ var))).
Proof.
  intros [Hd Ha] HD Hlen. split.
  - simpl. apply map_Forall_insert_2; [|done].
    rewrite py_set_of_str_length_1 by done. set_solver.
  - simpl. eapply Forall_impl; [exact Ha|]. intros xi Hxi. simpl in *.
    rewrite Forall_forall in *. intros xj Hj. apply Hxi.
    by apply (nbrs_of_clone set_order set_order_spec c).
Qed.

Lemma search_inv_keys c0 c :
  search_inv c0 c → keys_are_variables c0 → keys_are_variables c.
Proof.
  intros (Hv & Hk & _) H0 x D Hx. simpl. rewrite Hv.
  assert (is_Some (domains c0 !! x)) as [D0 HD0] by (apply Hk; by rewrite Hx).
  by apply (H0 x D0).
Qed.

(** A variable with an empty domain is the only reason for which a model
    that is not solved has no variable to branch on. *)
Lemma select_None_empty c :
  keys_are_variables c → is_solved c = false →
  select_unassigned_variable c = Ret None →
  ∃ x, domains c !! x = Some ∅.
Proof.
  intros Hk Hsol Hsel. apply select_unassigned_variable_Ret in Hsel.
  pose proof (py_min_spec (domain_size c)
                (filter (λ v, 1 < domain_size c v) (variables c))) as Hs.
  rewrite Hsel in Hs.
  apply bool_decide_eq_false in Hsol. apply map_not_Forall in Hsol; [|apply _].
  destruct Hsol as (x & D & Hx & Hsz). exists x. rewrite Hx. f_equal.
  assert (¬ 1 < size D) as Hle.
  { intros Hgt. assert (x ∈ filter (λ v, 1 < domain_size c v) (variables c)) as Hin.
    { apply list_elem_of_filter. split; [|by apply (Hk x D)].
      unfold domain_size. by rewrite Hx. }
    rewrite Hs in Hin. by apply elem_of_nil in Hin. }
  simpl in Hsz. assert (size D = 0) as H0 by lia.
  apply leibniz_equiv. by apply size_empty_iff.
Qed.

Lemma try_values_val_complete σ rec c0 c var D vals :
  search_inv c0 c → is_solution σ c →
  domains c !! var = Some D → String.length (σ var) = 1 →
  (∀ c', search_inv c0 c' → is_solution σ c' → rec c' ≠ Ret None) →
  σ var ∈ vals →
  try_values_val set_order rec c var vals ≠ Ret None.
Proof.
  intros HI Hs HD Hlen Hrec. induction vals as [|v vals IH]; intros Hin.
  { by apply elem_of_nil in Hin. }
  cbn [try_values_val].
  destruct (decide (v = σ var)) as [->|Hne].
  - pose proof HI as (_ & _ & _ & Hwf & Hsym).
    destruct (AC3_solution σ (set_domain (clone set_order c) var (py_set_of_str (σ var))))
      as (c' & HA & Hs').
    + by apply wf_csp_set_domain, wf_csp_clone.
    + by apply symmetric_neighbors_set_domain, symmetric_neighbors_clone.
    + by eapply is_solution_collapse.
    + rewrite HA. destruct (search_inv_step set_order set_order_spec _ _ _ _ _ _ HI HD HA) as [HI' _].
      specialize (Hrec c' HI' Hs'). by destruct (rec c') as [[?|]|?|].
  - apply elem_of_cons in Hin as [?|Hin]; [done|]. specialize (IH Hin).
    destruct (AC3 _) as [[[]|e|] c']; [|done..].
    by destruct (rec c') as [[?|]|?|].
Qed.

Lemma search_fuel_complete σ c0 fuel : ∀ c,
  keys_are_variables c0 →
  map_Forall (λ x _, String.length (σ x) = 1) (domains c0) →
  search_inv c0 c → is_solution σ c →
  search_fuel set_order fuel c ≠ Ret None.
Proof.
  intros c Hk Hlen. revert c.
  induction fuel as [|fuel IH]; intros c HI Hs; [done|].
  cbn [search_fuel]. destruct (is_solved c) eqn:Hsol; [done|].
  destruct (select_unassigned_variable c) as [[var|]|e|] eqn:Hsel; [| |done..].
  - apply select_unassigned_variable_Some in Hsel as (_ & D & HD & _).
    rewrite HD. eapply try_values_val_complete; [exact HI|exact Hs|exact HD| | |].
    + destruct HI as (_ & Hkeys & _).
      assert (is_Some (domains c0 !! var)) as [D0 HD0] by (apply Hkeys; by rewrite HD).
      by apply (Hlen var D0).
    + intros c' HI' Hs'. by apply IH.
    + apply py_sorted_elem. by eapply is_solution_elim_dom.
  - exfalso. destruct (select_None_empty c) as (x & Hx); [by eapply search_inv_keys|done..|].
    pose proof (is_solution_elim_dom σ c x ∅ Hs Hx). set_solver.
Qed.

End BacktrackingComplete.

(** ** The model returned by the search is a solution *)

Lemma assignment_of_singleton (d : gmap string (gset string)) x v :
  d !! x = Some {[v]} → assignment_of d x = v.
Proof. intros H. unfold assignment_of. rewrite H. simpl. by rewrite elements_singleton. Qed.

Lemma size_1_singleton (D : gset string) : size D = 1 → ∃ v, D = {[v]}.
Proof.
  intros H. apply size_1_elem_of in H as [v Hv]. exists v. by apply leibniz_equiv.
Qed.

Lemma solved_model_solution c0 s :
  search_inv c0 s → below s c0 → is_solved s = true → arc_consistent s →
  is_solution (assignment_of (domains s)) c0.
Proof.
  intros (Hv & Hk & Hn & Hwf & Hsym) Hb Hsol Hac.
  apply bool_decide_eq_true in Hsol.
  assert (∀ x, is_Some (domains c0 !! x) →
               domains s !! x = Some {[assignment_of (domains s) x]}) as Hval.
  { intros x Hx. apply Hk in Hx as [Ds HDs]. pose proof (Hsol x Ds HDs) as Hsz.
    apply size_1_singleton in Hsz as [v ->].
    by rewrite (assignment_of_singleton _ _ _ HDs). }
  split.
  - intros x D HD. simpl. pose proof (Hval x ltac:(by rewrite HD)) as Hx.
    specialize (Hb x). rewrite (dom_of_Some _ _ _ Hx), (dom_of_Some _ _ _ HD) in Hb.
    set_solver.
  - apply Forall_forall. intros xi Hi. apply Forall_forall. intros xj Hj.
    rewrite <- Hv in Hi. apply Hn in Hj.
    pose proof (wf_csp_neighbor s xi xj Hwf Hj) as Hjv.
    destruct (wf_csp_variable s xi Hwf Hi) as [Hdi _].
    destruct (wf_csp_variable s xj Hwf Hjv) as [Hdj _].
    apply Hk, Hval in Hdi. apply Hk, Hval in Hdj.
    pose proof (arc_consistent_elim s xi xj Hac Hi Hj (assignment_of (domains s) xi)) as Hok.
    rewrite (dom_of_Some _ _ _ Hdi), (dom_of_Some _ _ _ Hdj) in Hok.
    destruct Hok as (y & Hy & Hne); [set_solver|]. set_solver.
Qed.

Lemma same_frame_search_inv c c' :
  wf_csp c → symmetric_neighbors c → same_frame c c' → search_inv c c'.
Proof.
  intros Hwf Hsym Hf. pose proof Hf as (Hv & Hn & Hk). split_and!; [done..| | |].
  - intros x y. unfold nbrs_of. by rewrite Hn.
  - by eapply wf_csp_frame.
  - by eapply symmetric_neighbors_frame.
Qed.

Lemma search_inv_trans c0 c1 c2 : search_inv c0 c1 → search_inv c1 c2 → search_inv c0 c2.
Proof.
  intros (Hv & Hk & Hn & _) (Hv' & Hk' & Hn' & ? & ?). split_and!; [congruence| | |done..].
  - intros x. by rewrite Hk', Hk.
  - intros x y. by rewrite Hn', Hn.
Qed.

Lemma single_char_values_below c c' :
  single_char_values c → below c' c → single_char_values c'.
Proof.
  intros Hs Hb x D' Hx v Hv. specialize (Hb x). rewrite (dom_of_Some _ _ _ Hx) in Hb.
  apply Hb in Hv. apply dom_of_elem in Hv as (D & HD & Hv). by apply (Hs x D HD).
Qed.

Section BacktrackingCorrect.

Variable set_order : list Var → list Var.
Hypothesis set_order_spec : is_set_order set_order.

Lemma within_step c0 c var D v c' :
  search_inv c0 c ∧ below c c0 ∧ single_char_values c →
  domains c !! var = Some D → v ∈ D →
  AC3 (set_domain (clone set_order c) var (py_set_of_str v)) = (Ret true, c') →
  search_inv c0 c' ∧ below c' c0 ∧ single_char_values c'.
Proof.
  intros (HI & Hb & Hs) HD Hv HA.
  destruct (search_inv_step set_order set_order_spec _ _ _ _ _ _ HI HD HA) as [HI' _].
  destruct (AC3_frame _ _ _ HA) as [_ Hsub].
  assert (below c' c) as Hb'.
  { intros x. etrans; [apply Hsub|]. rewrite dom_of_set_domain.
    destruct (decide (var = x)) as [<-|]; [|done].
    rewrite (dom_of_Some _ _ _ HD), py_set_of_str_length_1 by (by apply (Hs var D HD)).
    set_solver. }
  split_and!; [done| |by eapply single_char_values_below].
  intros x. etrans; [apply Hb'|apply Hb].
Qed.

(** On a well-formed, arc-consistent model with one-character values the
    search returns; what it returns is solved, arc-consistent and within
    the domains of the model, and it fails only when the model has no
    solution. *)
Lemma search_fuel_correct c fuel :
  wf_csp c → symmetric_neighbors c → arc_consistent c →
  keys_are_variables c → single_char_values c →
  total_weight c < fuel →
  match search_fuel set_order fuel c with
  | Ret (Some s) =>
      is_solved s = true ∧ arc_consistent s ∧ search_inv c s ∧ below s c
  | Ret None => ∀ σ, ¬ is_solution σ c
  | _ => False
  end.
Proof.
  intros Hwf Hsym Hac Hk Hs Hfuel.
  pose proof (search_fuel_enough set_order fuel c Hfuel) as Hnf.
  pose proof (search_fuel_no_raise set_order set_order_spec fuel c) as Hnr.
  destruct (search_fuel set_order fuel c) as [[s|]|e|] eqn:H;
    [| |by eapply Hnr|by apply Hnf].
  - destruct (search_fuel_sound set_order set_order_spec fuel c s Hwf Hsym Hac H)
      as (Hsol & Hac' & _).
    destruct (search_fuel_invariant set_order
                (λ c', search_inv c c' ∧ below c' c ∧ single_char_values c'))
      with (fuel := fuel) (c := c) (s := s) as [(HI & Hb & _) _]; [| |done|].
    + intros c1 var D v c' HInv _ HD Hv HA. by eapply within_step.
    + split_and!; [by apply search_inv_refl|by intros x|done].
    + by split_and!.
  - intros σ Hσ. eapply (search_fuel_complete set_order set_order_spec σ c fuel c);
      [done| |by apply search_inv_refl|done|exact H].
    intros x D HD. simpl. apply (Hs x D HD). by eapply is_solution_elim_dom.
Qed.

(** The pipeline of [main] on a well-formed model with one-character
    values: the three ways in which it ends. *)
Lemma pipeline_cases c :
  wf_csp c → symmetric_neighbors c → keys_are_variables c → single_char_values c →
  (∃ F, AC3 c = (Ret false, F) ∧ ∀ σ, ¬ is_solution σ c)
  ∨ (∃ F, AC3 c = (Ret true, F) ∧ is_solved F = true
       ∧ search_inv c F ∧ is_solution (assignment_of (domains F)) c)
  ∨ (∃ F, AC3 c = (Ret true, F) ∧ is_solved F = false
       ∧ ((search_result set_order F = Ret None ∧ ∀ σ, ¬ is_solution σ c)
          ∨ ∃ s, search_result set_order F = Ret (Some s) ∧ is_solved s = true
              ∧ search_inv c s ∧ is_solution (assignment_of (domains s)) c)).
Proof.
  intros Hwf Hsym Hk Hs.
  destruct (AC3_returns c Hwf) as (b & F & HA).
  assert (∀ σ, is_solution σ c → b = true ∧ is_solution σ F) as Hsolution.
  { intros σ Hσ. destruct (AC3_solution σ c Hwf Hsym Hσ) as (F' & HA' & Hσ').
    rewrite HA in HA'. by simplify_eq. }
  destruct b.
  2:{ left. exists F. split; [done|]. intros σ Hσ. by destruct (Hsolution σ Hσ). }
  right. destruct (AC3_frame _ _ _ HA) as [Hf Hsub].
  pose proof (same_frame_search_inv c F Hwf Hsym Hf) as HI.
  pose proof HI as (_ & _ & _ & HwfF & HsymF).
  pose proof (AC3_true_arc_consistent _ _ Hsym HA) as HacF.
  assert (below F c) as HbF by exact Hsub.
  destruct (is_solved F) eqn:Hsol.
  { left. exists F. split_and!; [done..|]. by apply solved_model_solution. }
  right. exists F. split_and!; [done..|].
  pose proof (search_fuel_correct F (backtrack_bound F) HwfF HsymF HacF
                (search_inv_keys c F HI Hk) (single_char_values_below c F Hs HbF)
                ltac:(unfold backtrack_bound; lia)) as Hsearch.
  unfold search_result.
  destruct (search_fuel set_order (backtrack_bound F) F) as [[s|]|e|]; [| |done..].
  - right. exists s. destruct Hsearch as (Hsols & Hacs & HIs & Hbs).
    pose proof (search_inv_trans c F s HI HIs) as HIcs.
    split_and!; [done..|]. apply solved_model_solution; [done| |done..].
    intros x. etrans; [apply Hbs|apply HbF].
  - left. split; [done|]. intros σ Hσ. destruct (Hsolution σ Hσ) as [_ HσF].
    by apply (Hsearch σ).
Qed.

End BacktrackingCorrect.

(** ** The model built by [parse_sudoku] *)

Lemma list_to_map_fn_lookup {A} (g : string → A) (l : list string) x :
  (list_to_map ((λ v, (v, g v)) <$> l) : gmap string A) !! x
  = if decide (x ∈ l) then Some (g x) else None.
Proof.
  induction l as [|y l IH].
  - rewrite decide_False by apply not_elem_of_nil. done.
  - rewrite fmap_cons, list_to_map_cons, lookup_insert.
    destruct (decide (y = x)) as [->|Hne].
    + by rewrite decide_True by (by left).
    + rewrite IH. destruct (decide (x ∈ l)).
      * by rewrite decide_True by (by right).
      * rewrite decide_False; [done|]. intros [?|?]%elem_of_cons; congruence.
Qed.

Lemma cell_in_cells i j : i < 9 → j < 9 → cell i j ∈ cells.
Proof.
  intros Hi Hj.
  assert (Forall (λ i, Forall (λ j, cell i j ∈ cells) (seq 0 9)) (seq 0 9)) as H
    by compute_done.
  rewrite Forall_forall in H. specialize (H i). rewrite Forall_forall in H.
  apply H; apply elem_of_seq; lia.
Qed.

Lemma cell_inj i j i' j' :
  i < 9 → j < 9 → i' < 9 → j' < 9 → cell i j = cell i' j' → i = i' ∧ j = j'.
Proof.
  intros Hi Hj Hi' Hj'.
  assert (Forall (λ i, Forall (λ j, Forall (λ i', Forall (λ j',
            cell i j = cell i' j' → i = i' ∧ j = j') (seq 0 9)) (seq 0 9)) (seq 0 9)) (seq 0 9))
    as H by compute_done.
  rewrite Forall_forall in H. specialize (H i ltac:(apply elem_of_seq; lia)).
  rewrite Forall_forall in H. specialize (H j ltac:(apply elem_of_seq; lia)).
  rewrite Forall_forall in H. specialize (H i' ltac:(apply elem_of_seq; lia)).
  rewrite Forall_forall in H. apply H. apply elem_of_seq; lia.
Qed.

Lemma cells_lookup_cell x : x ∈ cells → ∃ i j, i < 9 ∧ j < 9 ∧ x = cell i j.
Proof.
  intros Hx.
  assert (Forall (λ x, Exists (λ i, Exists (λ j, x = cell i j) (seq 0 9)) (seq 0 9)) cells)
    as H by compute_done.
  rewrite Forall_forall in H. specialize (H x Hx).
  apply Exists_exists in H as (i & Hi & H). apply Exists_exists in H as (j & Hj & H).
  apply elem_of_seq in Hi, Hj. exists i, j. split_and!; [lia..|done].
Qed.

Lemma cell_neighbors_in_cells x y : x ∈ cells → y ∈ cell_neighbors x → y ∈ cells.
Proof.
  intros Hx Hy.
  assert (Forall (λ x, Forall (λ y, y ∈ cells) (cell_neighbors x)) cells) as H
    by compute_done.
  rewrite Forall_forall in H. specialize (H x Hx). rewrite Forall_forall in H. by apply H.
Qed.

Lemma cell_neighbors_sym x y : x ∈ cells → y ∈ cell_neighbors x → x ∈ cell_neighbors y.
Proof.
  intros Hx Hy.
  assert (Forall (λ x, Forall (λ y, x ∈ cell_neighbors y) (cell_neighbors x)) cells) as H
    by compute_done.
  rewrite Forall_forall in H. specialize (H x Hx). rewrite Forall_forall in H. by apply H.
Qed.

Lemma parse_sudoku_inv set_order lines c :
  parse_sudoku set_order lines = Ret c →
  length lines = 9
  ∧ ∃ doms', parse_lines 0 lines initial_domains = Ret doms'
      ∧ c = mkCSP cells doms' (sudoku_neighbors set_order).
Proof.
  unfold parse_sudoku, sudoku_neighbors, initial_domains, cells.
  generalize (list_to_map ((λ var, (var, set_order (remove_dups (cell_neighbors var))))
                <$> (r ← rows; (λ c, r +:+ c) <$> cols)) : gmap string (list string)).
  generalize (list_to_map ((λ var, (var, py_set_of_str "123456789"))
                <$> (r ← rows; (λ c, r +:+ c) <$> cols)) : gmap string (gset string)).
  generalize (r ← rows; (λ c, r +:+ c) <$> cols).
  intros vars doms nbrs.
  destruct (decide (length lines ≠ 9)) as [|Hlen]; [done|].
  destruct (parse_lines 0 lines doms) as [doms'|e|] eqn:Hp; [|done..].
  cbn [mbind res_bind]. intros [= <-]. split; [lia|]. by exists doms'.
Qed.

Lemma sudoku_neighbors_lookup set_order x :
  sudoku_neighbors set_order !! x
  = if decide (x ∈ cells) then Some (set_order (remove_dups (cell_neighbors x))) else None.
Proof. apply (list_to_map_fn_lookup (λ v, set_order (remove_dups (cell_neighbors v)))). Qed.

Lemma initial_domains_lookup x :
  initial_domains !! x = if decide (x ∈ cells) then Some (py_set_of_str "123456789") else None.
Proof. apply (list_to_map_fn_lookup (λ _, py_set_of_str "123456789")). Qed.

(** The loop over the tokens of a line writes the cells of that line
    only, each according to its token. *)
Lemma parse_cell_lookup doms var val doms' k :
  parse_cell doms var val = Ret doms' →
  doms' !! k = if decide (k = var ∧ py_in val "123456789" = true)
               then Some (py_set_of_str val) else doms !! k.
Proof.
  unfold parse_cell. destruct (py_in val "123456789").
  - intros [= <-]. rewrite lookup_insert.
    destruct (decide (var = k)) as [->|Hne].
    + by rewrite decide_True.
    + rewrite decide_False; [done|]. by intros [-> _].
  - destruct (py_in val ".0"); [|done]. intros [= <-].
    rewrite decide_False; [done|]. by intros [_ ?].
Qed.

Lemma parse_parts_spec i parts : ∀ j0 doms doms',
  i < 9 → j0 + length parts ≤ 9 →
  parse_parts (default "" (rows !! i)) j0 parts doms = Ret doms' →
  (∀ k, (∀ j, j < length parts → k ≠ cell i (j0 + j)) → doms' !! k = doms !! k)
  ∧ (∀ j tok, parts !! j = Some tok →
       doms' !! cell i (j0 + j)
       = if py_in tok "123456789" then Some (py_set_of_str tok)
         else doms !! cell i (j0 + j)).
Proof.
  induction parts as [|val parts IH]; intros j0 doms doms' Hi Hlen H.
  - cbn in H. simplify_eq. split; [done|]. by intros j tok ?.
  - cbn [parse_parts] in H. cbn [length] in Hlen.
    destruct (parse_cell doms _ val) as [d1|e|] eqn:Hc; [|done..].
    cbn [mbind res_bind] in H.
    destruct (IH (S j0) d1 doms' Hi ltac:(lia) H) as [Hframe Hlook].
    change (default "" (rows !! i) +:+ default "" (cols !! j0)) with (cell i j0) in Hc.
    split.
    + intros k Hk. rewrite Hframe.
      * rewrite (parse_cell_lookup _ _ _ _ k Hc). rewrite decide_False; [done|].
        intros [-> _]. apply (Hk 0); [cbn; lia|]. by rewrite Nat.add_0_r.
      * intros j Hj. replace (S j0 + j) with (j0 + S j) by lia. apply Hk. cbn. lia.
    + intros [|j] tok Htok.
      * cbn in Htok. simplify_eq. rewrite Nat.add_0_r. rewrite Hframe.
        -- rewrite (parse_cell_lookup _ _ _ _ _ Hc).
           destruct (py_in tok "123456789").
           ++ by rewrite decide_True.
           ++ rewrite decide_False; [done|]. by intros [_ ?].
        -- intros j Hj Heq. apply cell_inj in Heq as [_ ?]; lia.
      * cbn in Htok. replace (j0 + S j) with (S j0 + j) by lia.
        rewrite (Hlook j tok Htok). destruct (py_in tok "123456789"); [done|].
        rewrite (parse_cell_lookup _ _ _ _ _ Hc). rewrite decide_False; [done|].
        intros [Heq _]. apply lookup_lt_Some in Htok.
        apply cell_inj in Heq as [_ ?]; lia.
Qed.

Lemma parse_lines_spec lines : ∀ i0 doms doms',
  i0 + length lines ≤ 9 →
  parse_lines i0 lines doms = Ret doms' →
  (∀ k, (∀ i j, i < length lines → j < 9 → k ≠ cell (i0 + i) j) → doms' !! k = doms !! k)
  ∧ (∀ i j line tok, lines !! i = Some line →
       py_split (py_strip line) !! j = Some tok →
       length (py_split (py_strip line)) = 9
       ∧ doms' !! cell (i0 + i) j
         = if py_in tok "123456789" then Some (py_set_of_str tok)
           else doms !! cell (i0 + i) j).
Proof.
  induction lines as [|l lines IH]; intros i0 doms doms' Hlen H.
  - cbn in H. simplify_eq. split; [done|]. by intros i j line tok ?.
  - cbn [parse_lines] in H. cbn [length] in Hlen.
    destruct (decide (length (py_split (py_strip l)) ≠ 9)) as [|Hl]; [done|].
    assert (length (py_split (py_strip l)) = 9) as Hl9 by lia.
    destruct (parse_parts _ 0 _ doms) as [d1|e|] eqn:Hp; [|done..].
    cbn [mbind res_bind] in H.
    destruct (parse_parts_spec i0 (py_split (py_strip l)) 0 doms d1 ltac:(lia) ltac:(lia) Hp)
      as [Hf1 Hl1].
    destruct (IH (S i0) d1 doms' ltac:(lia) H) as [Hframe Hlook].
    split.
    + intros k Hk. rewrite Hframe.
      * apply Hf1. intros j Hj. specialize (Hk 0 j).
        rewrite Nat.add_0_r in Hk. apply Hk; [cbn; lia|lia].
      * intros i j Hi Hj. replace (S i0 + i) with (i0 + S i) by lia. apply Hk; [cbn; lia|done].
    + intros [|i] j line tok Hline Htok.
      * cbn in Hline. simplify_eq. split; [done|]. rewrite Nat.add_0_r.
        pose proof (lookup_lt_Some _ _ _ Htok) as Hj.
        rewrite Hframe.
        -- apply (Hl1 j tok Htok).
        -- intros i' j' Hi' Hj' Heq. apply cell_inj in Heq as [? _]; lia.
      * cbn in Hline. replace (i0 + S i) with (S i0 + i) by lia.
        destruct (Hlook i j line tok Hline Htok) as [Hl9' ->]. split; [done|].
        destruct (py_in tok "123456789"); [done|].
        pose proof (lookup_lt_Some _ _ _ Htok) as Hj.
        pose proof (lookup_lt_Some _ _ _ Hline) as Hi.
        apply Hf1. intros j' Hj' Heq. apply cell_inj in Heq as [? _]; lia.
Qed.

(** What the loader returns: the 81 cells as variables, a domain for
    every cell and for nothing else, and the neighbour sets computed by
    [cell_neighbors]. *)
Lemma parse_sudoku_keys set_order lines c x :
  parse_sudoku set_order lines = Ret c →
  variables c = cells
  ∧ neighbors c = sudoku_neighbors set_order
  ∧ (is_Some (domains c !! x) ↔ x ∈ cells).
Proof.
  intros H. apply parse_sudoku_inv in H as (Hlen & doms' & Hp & ->).
  split_and!; [done..|]. cbn [domains].
  destruct (parse_lines_spec lines 0 initial_domains doms' ltac:(lia) Hp) as [Hframe Hlook].
  destruct (decide (x ∈ cells)) as [Hx|Hx].
  - split; [done|]. intros _.
    apply cells_lookup_cell in Hx as (i & j & Hi & Hj & ->).
    destruct (lookup_lt_is_Some_2 lines i ltac:(lia)) as [line Hline].
    destruct (decide (length (py_split (py_strip line)) = 9)) as [Hl|Hl].
    + destruct (lookup_lt_is_Some_2 (py_split (py_strip line)) j ltac:(lia)) as [tok Htok].
      destruct (Hlook i j line tok Hline Htok) as [_ Hd].
      change (0 + i) with i in Hd. rewrite Hd.
      destruct (py_in tok "123456789"); [by eexists|].
      rewrite initial_domains_lookup, decide_True; [by eexists|by apply cell_in_cells].
    + exfalso. clear -Hline Hl Hp. revert Hp. generalize 0 initial_domains.
      revert i Hline. induction lines as [|l lines IH]; intros i Hline i0 doms Hp; [done|].
      cbn [parse_lines] in Hp.
      destruct (decide (length (py_split (py_strip l)) ≠ 9)) as [|Hl9]; [done|].
      destruct (parse_parts _ 0 _ doms) as [d1|e|]; [|done..].
      destruct i as [|i]; cbn in Hline; simplify_eq; [lia|].
      by eapply IH.
  - split; [|done]. rewrite Hframe.
    + rewrite initial_domains_lookup, decide_False by done. by intros [? ?].
    + intros i j Hi Hj ->. apply Hx, cell_in_cells; lia.
Qed.

Lemma sudoku_neighbors_nbrs_of set_order c x y :
  is_set_order set_order → neighbors c = sudoku_neighbors set_order →
  y ∈ nbrs_of c x ↔ x ∈ cells ∧ y ∈ cell_neighbors x.
Proof.
  intros Hso Hn. unfold is_set_order in Hso.
  unfold nbrs_of. rewrite Hn, sudoku_neighbors_lookup.
  destruct (decide (x ∈ cells)); simpl.
  - rewrite Hso, elem_of_remove_dups. naive_solver.
  - split; [by intros ?%elem_of_nil|by intros [? _]].
Qed.

Lemma parse_sudoku_wf set_order lines c :
  is_set_order set_order → parse_sudoku set_order lines = Ret c →
  wf_csp c ∧ symmetric_neighbors c ∧ keys_are_variables c.
Proof.
  intros Hso H.
  assert (∀ x, variables c = cells ∧ neighbors c = sudoku_neighbors set_order
               ∧ (is_Some (domains c !! x) ↔ x ∈ cells)) as Hk
    by (intros x; by eapply parse_sudoku_keys).
  destruct (Hk "") as (Hv & Hn & _).
  split_and!.
  - split.
    + apply Forall_forall. intros x Hx. rewrite Hv in Hx. split.
      * by apply Hk.
      * rewrite Hn, sudoku_neighbors_lookup, decide_True by done. done.
    + intros x ns Hns. simpl. apply Forall_forall. intros y Hy.
      rewrite <- (nbrs_of_Some _ _ _ Hns) in Hy.
      apply (sudoku_neighbors_nbrs_of set_order c x y Hso Hn) in Hy as [Hx Hy].
      rewrite Hv. by eapply cell_neighbors_in_cells.
  - intros x ns Hns. apply Forall_forall. intros y Hy.
    rewrite <- (nbrs_of_Some _ _ _ Hns) in Hy.
    apply (sudoku_neighbors_nbrs_of set_order c x y Hso Hn) in Hy as [Hx Hy].
    apply (sudoku_neighbors_nbrs_of set_order c y x Hso Hn). split.
    + by eapply cell_neighbors_in_cells.
    + by apply cell_neighbors_sym.
  - intros x D HD. simpl. rewrite Hv. apply Hk. by rewrite HD.
Qed.

(** ** The Sudoku topology *)

Lemma cell_neighbors_same_unit i j i' j' :
  i < 9 → j < 9 → i' < 9 → j' < 9 →
  cell i' j' ∈ cell_neighbors (cell i j) ↔ same_unit i j i' j'.
Proof.
  intros Hi Hj Hi' Hj'.
  assert (Forall (λ i, Forall (λ j, Forall (λ i', Forall (λ j',
            bool_decide (cell i' j' ∈ cell_neighbors (cell i j))
            = bool_decide (same_unit i j i' j'))
            (seq 0 9)) (seq 0 9)) (seq 0 9)) (seq 0 9)) as H by compute_done.
  rewrite Forall_forall in H. specialize (H i ltac:(apply elem_of_seq; lia)).
  rewrite Forall_forall in H. specialize (H j ltac:(apply elem_of_seq; lia)).
  rewrite Forall_forall in H. specialize (H i' ltac:(apply elem_of_seq; lia)).
  rewrite Forall_forall in H. specialize (H j' ltac:(apply elem_of_seq; lia)).
  split; intros Hx; apply (bool_decide_unpack _);
    [rewrite <- H|rewrite H]; by apply bool_decide_pack.
Qed.

Lemma cell_neighbors_count x : x ∈ cells → length (remove_dups (cell_neighbors x)) = 20.
Proof.
  intros Hx.
  assert (Forall (λ x, length (remove_dups (cell_neighbors x)) = 20) cells) as H
    by compute_done.
  rewrite Forall_forall in H. by apply H.
Qed.

(** ** [print_solution] *)

Lemma mapM_res_fmap {A B} (f : A → res B) (g : A → B) (l : list A) :
  (∀ x, x ∈ l → f x = Ret (g x)) → mapM f l = Ret (g <$> l).
Proof.
  induction l as [|x l IH]; intros H; [done|].
  cbn [mapM]. rewrite (H x) by (by left). cbn [mbind res_bind].
  rewrite IH by (intros y Hy; apply H; by right). done.
Qed.

Lemma first_value_assignment c k D :
  domains c !! k = Some D → D ≠ ∅ →
  first_value c k = Ret (assignment_of (domains c) k).
Proof.
  intros HD Hne. unfold first_value, assignment_of. rewrite HD. simpl.
  destruct (elements D) as [|x l] eqn:He; [|done].
  exfalso. apply Hne. by apply elements_empty_inv, leibniz_equiv in He.
Qed.

Lemma cell_key_in_cells r col : r ∈ rows → col ∈ cols → r +:+ col ∈ cells.
Proof.
  intros Hr Hc. unfold cells. apply list_elem_of_bind. exists r. split; [|done].
  apply list_elem_of_fmap. by exists col.
Qed.

Lemma print_solution_solved c :
  is_solved c = true → (∀ x, x ∈ cells → is_Some (domains c !! x)) →
  print_solution c = Ret (grid_of (domains c)).
Proof.
  intros Hsol Hk. unfold print_solution, grid_of. rewrite Hsol. cbn [negb].
  apply mapM_res_fmap. intros r Hr.
  rewrite (mapM_res_fmap (λ col, first_value c (r +:+ col))
             (λ col, assignment_of (domains c) (r +:+ col))); [done|].
  intros col Hcol. destruct (Hk (r +:+ col)) as [D HD]; [by apply cell_key_in_cells|].
  apply (first_value_assignment c _ D HD).
  apply bool_decide_eq_true in Hsol. pose proof (Hsol _ _ HD) as Hsz. simpl in Hsz.
  intros ->. by rewrite size_empty in Hsz.
Qed.

(** ** The files that the loader accepts *)

Lemma parse_parts_accepts row parts : ∀ j doms,
  (∃ doms', parse_parts row j parts doms = Ret doms') ↔ Forall accepted_token parts.
Proof.
  induction parts as [|val parts IH]; intros j doms.
  - split; [by constructor|]. intros _. by eexists.
  - cbn [parse_parts]. unfold parse_cell. rewrite Forall_cons. unfold accepted_token at 1.
    destruct (py_in val "123456789"); cbn [mbind res_bind].
    { rewrite IH. naive_solver. }
    destruct (py_in val ".0"); cbn [mbind res_bind].
    { rewrite IH. naive_solver. }
    split; [by intros [? ?]|]. intros [[?|?] _]; done.
Qed.

Lemma parse_lines_accepts lines : ∀ i doms,
  (∃ doms', parse_lines i lines doms = Ret doms')
  ↔ Forall (λ line, length (py_split (py_strip line)) = 9
                    ∧ Forall accepted_token (py_split (py_strip line))) lines.
Proof.
  induction lines as [|l lines IH]; intros i doms.
  - split; [by constructor|]. intros _. by eexists.
  - cbn [parse_lines]. rewrite Forall_cons.
    destruct (decide (length (py_split (py_strip l)) ≠ 9)) as [Hl|Hl].
    { split; [by intros [? ?]|]. by intros [[? _] _]. }
    assert (length (py_split (py_strip l)) = 9) as Hl9 by lia.
    pose proof (parse_parts_accepts (default "" (rows !! i)) (py_split (py_strip l)) 0 doms)
      as Hparts.
    destruct (parse_parts _ 0 _ doms) as [d1|e|]; cbn [mbind res_bind].
    + rewrite IH. split; [|naive_solver]. intros H. split; [|done]. split; [done|].
      apply Hparts. by eexists.
    + split; [by intros [? ?]|]. intros [[_ Hacc] _]. apply Hparts in Hacc as [? ?]. done.
    + split; [by intros [? ?]|]. intros [[_ Hacc] _]. apply Hparts in Hacc as [? ?]. done.
Qed.

Lemma parse_sudoku_accepts set_order lines :
  (∃ c, parse_sudoku set_order lines = Ret c) ↔ accepted_file lines.
Proof.
  unfold accepted_file. rewrite <- (parse_lines_accepts lines 0 initial_domains).
  split.
  - intros [c H]. apply parse_sudoku_inv in H as (Hlen & doms' & Hp & _).
    split; [done|]. by exists doms'.
  - intros [Hlen [doms' Hp]]. exists (mkCSP cells doms' (sudoku_neighbors set_order)).
    revert Hp. unfold parse_sudoku, sudoku_neighbors, initial_domains, cells.
    generalize (list_to_map ((λ var, (var, set_order (remove_dups (cell_neighbors var))))
                  <$> (r ← rows; (λ c, r +:+ c) <$> cols)) : gmap string (list string)).
    generalize (list_to_map ((λ var, (var, py_set_of_str "123456789"))
                  <$> (r ← rows; (λ c, r +:+ c) <$> cols)) : gmap string (gset string)).
    generalize (r ← rows; (λ c, r +:+ c) <$> cols).
    intros vars doms nbrs Hp. rewrite decide_False by lia. by rewrite Hp.
Qed.

Lemma parse_sudoku_result set_order lines :
  match parse_sudoku set_order lines with
  | Ret _ => True
  | Raise e => ∃ msg, e = ValueError msg
  | OutOfFuel => False
  end.
Proof.
  unfold parse_sudoku.
  generalize (list_to_map ((λ var, (var, set_order (remove_dups (cell_neighbors var))))
                <$> (r ← rows; (λ c, r +:+ c) <$> cols)) : gmap string (list string)).
  generalize (list_to_map ((λ var, (var, py_set_of_str "123456789"))
                <$> (r ← rows; (λ c, r +:+ c) <$> cols)) : gmap string (gset string)).
  generalize (r ← rows; (λ c, r +:+ c) <$> cols).
  intros vars doms nbrs.
  destruct (decide (length lines ≠ 9)); [by eexists|].
  assert (∀ i d, match parse_lines i lines d with
                 | Ret _ => True
                 | Raise e => ∃ msg, e = ValueError msg
                 | OutOfFuel => False
                 end) as H.
  { clear. induction lines as [|l lines IH]; intros i d; [done|].
    cbn [parse_lines].
    destruct (decide (length (py_split (py_strip l)) ≠ 9)); [by eexists|].
    pose proof (parse_parts_result (default "" (rows !! i)) (py_split (py_strip l)) 0 d) as Hp.
    destruct (parse_parts _ 0 _ d) as [d1|e|]; cbn [mbind res_bind]; [apply IH|done..]. }
  specialize (H 0 doms). by destruct (parse_lines 0 lines doms).
Qed.

(** ** Missing neighbour sets *)

(** The loops that fill the queue raise [KeyError] for the first
    variable without a neighbour set. *)
Lemma all_arcs_KeyError c vars pre x post :
  vars = pre ++ x :: post →
  Forall (λ v, is_Some (neighbors c !! v)) pre → neighbors c !! x = None →
  all_arcs c vars = Raise (KeyError x).
Proof.
  intros -> Hpre Hx. induction Hpre as [|v pre [ns Hv] _ IH]; cbn [all_arcs app].
  - by rewrite Hx.
  - rewrite Hv, IH. done.
Qed.

Lemma all_arcs_Ret c vars :
  Forall (λ v, is_Some (neighbors c !! v)) vars → ∃ queue, all_arcs c vars = Ret queue.
Proof.
  induction 1 as [|v vars [ns Hv] _ [q IH]]; cbn [all_arcs]; [by eexists|].
  rewrite Hv, IH. by eexists.
Qed.

(** ** [backtrack] on the store *)

Section BacktrackingOnStore.

Variable set_order : list Var → list Var.
Hypothesis set_order_spec : is_set_order set_order.


End BacktrackingOnStore.

Lemma parsed_Ret lines : accepted_file lines → parse_sudoku id lines = Ret (parsed lines).
Proof.
  intros H. apply (parse_sudoku_accepts id) in H as [c H]. unfold parsed. by rewrite H.
Qed.

(** * Properties of the propagation *)







(** X4. [AC3] changes domains only: whatever it returns or raises, the
    variables, the neighbour sets and the set of keys of the domain
    dictionary are those of the model it was given. *)
Theorem AC3_changes_domains_only c r c' :
  AC3 c = (r, c') →
  variables c' = variables c ∧ neighbors c' = neighbors c
  ∧ dom (domains c') = dom (domains c).
Proof.
  intros H. destruct (AC3_frame _ _ _ H) as [(Hv & Hn & Hk) _].
  split_and!; [done..|]. apply set_eq. intros x. by rewrite !elem_of_dom.
Qed.

Lemma AC3_changes_domains_only_witness :
  variables (AC3 ex_pigeon).2 = variables ex_pigeon
  ∧ neighbors (AC3 ex_pigeon).2 = neighbors ex_pigeon
  ∧ dom (domains (AC3 ex_pigeon).2) = dom (domains ex_pigeon).
Proof.
  apply (AC3_changes_domains_only ex_pigeon (AC3 ex_pigeon).1).
  by destruct (AC3 ex_pigeon).
Defined.

(** X5. On a well-formed model [AC3] raises no [KeyError]: it returns a
    flag, and the model it leaves is well formed. *)
Theorem AC3_returns_on_well_formed c :
  wf_csp c → ∃ b c', AC3 c = (Ret b, c') ∧ wf_csp c'.
Proof.
  intros Hwf. destruct (AC3_returns c Hwf) as (b & c' & H). exists b, c'.
  split; [done|]. destruct (AC3_frame _ _ _ H) as [Hf _]. by eapply wf_csp_frame.
Qed.

Lemma AC3_returns_on_well_formed_witness :
  ∃ b c', AC3 ex_conflict = (Ret b, c') ∧ wf_csp c'.
Proof. apply (AC3_returns_on_well_formed ex_conflict). compute_done. Defined.

(** X6. When a variable has no neighbour set, [AC3] raises [KeyError]
    for the first such variable while it fills the queue, before any
    domain is touched. *)
Theorem AC3_missing_neighbors c pre x post :
  variables c = pre ++ x :: post →
  Forall (λ v, is_Some (neighbors c !! v)) pre → neighbors c !! x = None →
  AC3 c = (Raise (KeyError x), c).
Proof.
  intros Hv Hpre Hx. unfold AC3, AC3_fuel.
  by rewrite (all_arcs_KeyError c (variables c) pre x post Hv Hpre Hx).
Qed.

Lemma AC3_missing_neighbors_witness :
  AC3 ex_no_neighbors = (Raise (KeyError "b"), ex_no_neighbors).
Proof.
  apply (AC3_missing_neighbors ex_no_neighbors ["a"] "b" []).
  - reflexivity.
  - compute_done.
  - reflexivity.
Defined.



(** * Properties of the search *)



(** X9. The recursion of [backtrack] is bounded by the number of values
    left in the domains: a budget of [backtrack_bound c] nested calls is
    never exhausted, and any larger budget gives the same result and the
    same store. *)
Theorem backtrack_terminates set_order fuel csp (h : list CSP) c :
  h !! csp = Some c → backtrack_bound c ≤ fuel →
  backtrack_fuel set_order fuel csp h = backtrack set_order csp h
  ∧ (backtrack set_order csp h).1 ≠ OutOfFuel.
Proof.
  intros Hc Hle. split; [by eapply backtrack_fuel_enough|apply backtrack_no_fuel].
Qed.

Lemma backtrack_terminates_witness :
  backtrack_fuel id 100 0 [ex_search] = backtrack id 0 [ex_search]
  ∧ (backtrack id 0 [ex_search]).1 ≠ OutOfFuel.
Proof.
  apply (backtrack_terminates id 100 0 [ex_search] ex_search).
  - reflexivity.
  - vm_compute. lia.
Defined.

(** X10. The dead end of [backtrack]: when the model is not solved and
    [select_unassigned_variable] finds no variable with more than one
    value, [backtrack] returns [None] and leaves the store as it is; this
    happens only when some domain is empty. *)
Theorem backtrack_dead_end set_order (h : list CSP) csp c :
  h !! csp = Some c → keys_are_variables c →
  is_solved c = false → select_unassigned_variable c = Ret None →
  backtrack set_order csp h = (Ret None, h) ∧ ∃ x, domains c !! x = Some ∅.
Proof.
  intros Hc Hk Hsol Hsel. split; [|by apply select_None_empty].
  unfold backtrack, backtrack_bound. rewrite Hc. cbn [backtrack_fuel].
  by rewrite Hc, Hsol, Hsel.
Qed.

Lemma backtrack_dead_end_witness :
  backtrack id 0 [ex_dead_end] = (Ret None, [ex_dead_end])
  ∧ ∃ x, domains ex_dead_end !! x = Some ∅.
Proof.
  apply (backtrack_dead_end id [ex_dead_end] 0 ex_dead_end).
  - reflexivity.
  - compute_done.
  - vm_compute. reflexivity.
  - vm_compute. reflexivity.
Defined.



(** * Properties of the loader *)

(** X12. The model that [parse_sudoku] builds: its variables are the 81
    distinct cells [A1] .. [I9] in row order, the domain and the
    neighbour dictionaries have exactly the cells as keys, every
    neighbour is a cell, and the neighbour relation is symmetric. *)
Theorem parse_sudoku_model set_order lines c :
  is_set_order set_order → parse_sudoku set_order lines = Ret c →
  variables c = cells ∧ length (variables c) = 81 ∧ NoDup (variables c)
  ∧ dom (domains c) = list_to_set cells ∧ dom (neighbors c) = list_to_set cells
  ∧ wf_csp c ∧ symmetric_neighbors c.
Proof.
  intros Hso H.
  destruct (parse_sudoku_wf set_order lines c Hso H) as (Hwf & Hsym & _).
  assert (∀ x, variables c = cells ∧ neighbors c = sudoku_neighbors set_order
               ∧ (is_Some (domains c !! x) ↔ x ∈ cells)) as Hk
    by (intros x; by eapply parse_sudoku_keys).
  destruct (Hk "") as (Hv & Hn & _). rewrite Hv.
  split_and!; [done|reflexivity|compute_done| | |done..].
  - apply set_eq. intros x. rewrite elem_of_dom, elem_of_list_to_set. apply Hk.
  - apply set_eq. intros x.
    rewrite elem_of_dom, elem_of_list_to_set, Hn, sudoku_neighbors_lookup.
    destruct (decide (x ∈ cells)); [by split; [|eexists]|].
    split; [by intros [? ?]|done].
Qed.

Lemma parse_sudoku_model_witness :
  variables (parsed puzzle_easy) = cells
  ∧ length (variables (parsed puzzle_easy)) = 81 ∧ NoDup (variables (parsed puzzle_easy))
  ∧ dom (domains (parsed puzzle_easy)) = list_to_set cells
  ∧ dom (neighbors (parsed puzzle_easy)) = list_to_set cells
  ∧ wf_csp (parsed puzzle_easy) ∧ symmetric_neighbors (parsed puzzle_easy).
Proof.
  apply (parse_sudoku_model id puzzle_easy).
  - by intros l x.
  - apply parsed_Ret. compute_done.
Defined.

(** The domain that the loader gives to a cell, from the token at its
    place in the file. *)
Lemma parse_sudoku_token_domain set_order lines c i j line tok :
  parse_sudoku set_order lines = Ret c →
  lines !! i = Some line → py_split (py_strip line) !! j = Some tok →
  domains c !! cell i j = Some (token_domain tok).
Proof.
  intros H Hl Ht. apply parse_sudoku_inv in H as (Hlen & doms' & Hp & ->).
  cbn [domains].
  destruct (parse_lines_spec lines 0 initial_domains doms' ltac:(lia) Hp) as [_ Hs].
  destruct (Hs i j line tok Hl Ht) as [Hn Hd]. cbn [Nat.add] in Hd.
  rewrite Hd. unfold token_domain. destruct (py_in tok "123456789"); [done|].
  rewrite initial_domains_lookup, decide_True; [done|].
  apply cell_in_cells.
  - apply lookup_lt_Some in Hl. lia.
  - apply lookup_lt_Some in Ht. lia.
Qed.

(** X13. The domains that [parse_sudoku] builds: the j-th token of the
    i-th line decides the domain of the cell in row i and column j; a
    token found in [123456789] gives the set of its characters, a token
    found in [.0] gives the full domain of nine digits. *)
Theorem parse_sudoku_domains set_order lines c i j line tok :
  parse_sudoku set_order lines = Ret c →
  lines !! i = Some line → py_split (py_strip line) !! j = Some tok →
  domains c !! cell i j = Some (token_domain tok).
Proof. apply parse_sudoku_token_domain. Qed.

Lemma parse_sudoku_domains_witness :
  domains (parsed puzzle_easy) !! cell 0 1 = Some (token_domain "3").
Proof.
  apply (parse_sudoku_domains id puzzle_easy (parsed puzzle_easy) 0 1
           ("5 3 . . 7 . . . ." +:+ nl) "3").
  - apply parsed_Ret. compute_done.
  - reflexivity.
  - vm_compute. reflexivity.
Defined.

(** X14. The Sudoku topology that [parse_sudoku] builds: the neighbours
    of a cell are exactly the other cells of its row, of its column and
    of its 3x3 box, and every cell has 20 of them. *)
Theorem parse_sudoku_neighbors set_order lines c i j i' j' :
  is_set_order set_order → parse_sudoku set_order lines = Ret c →
  i < 9 → j < 9 → i' < 9 → j' < 9 →
  (cell i' j' ∈ nbrs_of c (cell i j) ↔ same_unit i j i' j')
  ∧ size (list_to_set (nbrs_of c (cell i j)) : gset Var) = 20.
Proof.
  intros Hso H Hi Hj Hi' Hj'.
  destruct (parse_sudoku_keys set_order lines c "" H) as (_ & Hn & _).
  pose proof (cell_in_cells i j Hi Hj) as Hc.
  split.
  - rewrite (sudoku_neighbors_nbrs_of set_order c _ _ Hso Hn).
    rewrite <- (cell_neighbors_same_unit i j i' j') by done. naive_solver.
  - unfold nbrs_of. rewrite Hn, sudoku_neighbors_lookup, decide_True by done.
    cbn [default from_option id].
    assert ((list_to_set (set_order (remove_dups (cell_neighbors (cell i j)))) : gset Var)
            = list_to_set (remove_dups (cell_neighbors (cell i j)))) as Heq.
    { apply set_eq. intros x. rewrite !elem_of_list_to_set. apply Hso. }
    rewrite Heq.
    rewrite size_list_to_set by apply NoDup_remove_dups.
    by apply cell_neighbors_count.
Qed.

Lemma parse_sudoku_neighbors_witness :
  (cell 1 1 ∈ nbrs_of (parsed puzzle_easy) (cell 0 0) ↔ same_unit 0 0 1 1)
  ∧ size (list_to_set (nbrs_of (parsed puzzle_easy) (cell 0 0)) : gset Var) = 20.
Proof.
  apply (parse_sudoku_neighbors id puzzle_easy (parsed puzzle_easy) 0 0 1 1).
  - by intros l x.
  - apply parsed_Ret. compute_done.
  - lia.
  - lia.
  - lia.
  - lia.
Defined.

(** X15. The files that [parse_sudoku] accepts are exactly those of
    nine lines that split into nine tokens each, every token being found
    in [123456789] or in [.0] by the substring test; on every other file
    it raises [ValueError]. *)
Theorem parse_sudoku_accepts_exactly set_order lines :
  if decide (accepted_file lines)
  then ∃ c, parse_sudoku set_order lines = Ret c
  else ∃ msg, parse_sudoku set_order lines = Raise (ValueError msg).
Proof.
  pose proof (parse_sudoku_accepts set_order lines) as Hiff.
  pose proof (parse_sudoku_result set_order lines) as Hres.
  destruct (decide (accepted_file lines)) as [Ha|Hna]; [by apply Hiff|].
  destruct (parse_sudoku set_order lines) as [c|e|].
  - destruct Hna. apply Hiff. by exists c.
  - destruct Hres as [msg ->]. by exists msg.
  - done.
Qed.

(** X16. One-character tokens: a digit [1] .. [9] sets the domain of
    its cell to that digit alone, [.] and [0] leave the domains as they
    are, and every other character raises [ValueError] with the message
    naming it. *)
Theorem parse_cell_one_char_token doms var a :
  parse_cell doms var (String a EmptyString) =
  if decide (String a EmptyString ∈ str_chars "123456789")
  then Ret (<[var := {[String a EmptyString]}]> doms)
  else if decide (String a EmptyString ∈ str_chars ".0") then Ret doms
  else Raise (ValueError ("Invalid character '" +:+ String a EmptyString +:+ "' in input.")).
Proof.
  unfold parse_cell. rewrite py_set_of_str_single.
  destruct a as [[] [] [] [] [] [] [] []];
    repeat match goal with
    | |- context [py_in ?s ?t] =>
        let r := eval vm_compute in (py_in s t) in change (py_in s t) with r
    end; cbv iota;
    first [ by rewrite decide_True by compute_done
          | by rewrite decide_False, decide_True by compute_done
          | by rewrite !decide_False by compute_done ].
Qed.

(** X17. Every value of a model built by [parse_sudoku] is a string of
    one character, so the collapse [set(value)] of [backtrack] is the
    singleton of the value on these models. *)
Theorem parse_sudoku_values_collapse set_order lines c x D v :
  parse_sudoku set_order lines = Ret c →
  domains c !! x = Some D → v ∈ D →
  String.length v = 1 ∧ py_set_of_str v = {[v]}.
Proof.
  intros H HD Hv. apply parse_sudoku_single_char_values in H.
  pose proof (H x D HD v Hv) as Hlen. simpl in Hlen.
  split; [done|]. by apply py_set_of_str_length_1.
Qed.

Lemma parse_sudoku_values_collapse_witness :
  String.length "3" = 1 ∧ py_set_of_str "3" = {["3"]}.
Proof.
  apply (parse_sudoku_values_collapse id puzzle_easy (parsed puzzle_easy)
           (cell 0 1) (token_domain "3") "3").
  - apply parsed_Ret. compute_done.
  - apply (parse_sudoku_token_domain id puzzle_easy (parsed puzzle_easy) 0 1
             ("5 3 . . 7 . . . ." +:+ nl) "3").
    + apply parsed_Ret. compute_done.
    + reflexivity.
    + vm_compute. reflexivity.
  - compute_done.
Defined.

(** * Properties of the printer and of [main] *)

(** X18. [print_solution] on a model that has a domain for each of the
    81 cells: for a solved model it prints the nine rows of the grid,
    each the values of its nine cells separated by spaces, and raises
    nothing; for a model that is not solved it prints the line
    [No solution found.] only. *)
Theorem print_solution_grid c :
  (∀ x, x ∈ cells → is_Some (domains c !! x)) →
  print_solution c
  = if is_solved c then Ret (grid_of (domains c)) else Ret ["No solution found."].
Proof.
  intros Hk. destruct (is_solved c) eqn:Hsol.
  - by apply print_solution_solved.
  - unfold print_solution. by rewrite Hsol.
Qed.

Lemma print_solution_grid_witness :
  print_solution (AC3 (parsed puzzle_easy)).2
  = if is_solved (AC3 (parsed puzzle_easy)).2
    then Ret (grid_of (domains (AC3 (parsed puzzle_easy)).2))
    else Ret ["No solution found."].
Proof.
  apply (print_solution_grid (AC3 (parsed puzzle_easy)).2).
  intros x Hx.
  destruct (AC3_frame (parsed puzzle_easy) (AC3 (parsed puzzle_easy)).1
              (AC3 (parsed puzzle_easy)).2) as [(_ & _ & Hk) _];
    [by destruct (AC3 (parsed puzzle_easy))|].
  apply Hk.
  by apply (parse_sudoku_keys id puzzle_easy (parsed puzzle_easy) x
              (parsed_Ret puzzle_easy ltac:(compute_done))).
Defined.

(** X19. [main] end to end.  When the loader raises, [main] raises the
    same [ValueError] and prints nothing more.  Otherwise [main] returns,
    and its output is one of four: the no-solution line right after the
    [AC3] pass or after the search, and then the puzzle has no solution;
    or the grid of a solution of the puzzle, found by [AC3] alone or by
    the search. *)
Theorem main_correct set_order lines :
  is_set_order set_order →
  match parse_sudoku set_order lines with
  | Ret c =>
      let out := ["Parsed Sudoku puzzle and initialized CSP.";
                  nl +:+ "Starting AC-3 algorithm..."] in
      let out' := out ++ [nl +:+ "AC-3 completed. Puzzle is not fully solved. Applying backtracking..."] in
      ((main set_order lines = Ret (out ++ ["Sudoku puzzle has no solution."])
        ∨ main set_order lines = Ret (out' ++ ["Sudoku puzzle has no solution."]))
       ∧ ∀ σ, ¬ is_solution σ c)
      ∨ ∃ d,
          (main set_order lines
             = Ret (out ++ [nl +:+ "Sudoku puzzle is solved by AC-3."] ++ grid_of d)
           ∨ main set_order lines
             = Ret (out' ++ [nl +:+ "Sudoku puzzle solved with backtracking:"] ++ grid_of d))
          ∧ is_solution (assignment_of d) c
  | Raise e => main set_order lines = Raise e ∧ ∃ msg, e = ValueError msg
  | OutOfFuel => False
  end.
Proof.
  intros Hso. pose proof (parse_sudoku_result set_order lines) as Hres.
  unfold main.
  destruct (parse_sudoku set_order lines) as [c|e|] eqn:Hp; [|done..].
  cbn [mbind res_bind]. cbv zeta.
  destruct (parse_sudoku_wf set_order lines c Hso Hp) as (Hwf & Hsym & Hk).
  pose proof (parse_sudoku_single_char_values set_order lines c Hp) as Hs.
  assert (∀ s, search_inv c s → ∀ x, x ∈ cells → is_Some (domains s !! x)) as Hcells.
  { intros s (_ & Hkeys & _) x Hx. apply Hkeys.
    by apply (parse_sudoku_keys set_order lines c x Hp). }
  rewrite main_core_unfold. cbv zeta.
  destruct (pipeline_cases set_order Hso c Hwf Hsym Hk Hs)
    as [(F & -> & Hno)|[(F & -> & Hsol & HI & Hσ)
        |(F & -> & -> & [[-> Hno]|(s & -> & Hsol & HI & Hσ)])]].
  - left. split; [by left|done].
  - right. exists (domains F). split; [|done]. left.
    rewrite Hsol, (print_solution_solved F Hsol (Hcells F HI)). done.
  - left. split; [by right|done].
  - right. exists (domains s). split; [|done]. right.
    rewrite (print_solution_solved s Hsol (Hcells s HI)). done.
Qed.

Lemma main_correct_witness :
  match parse_sudoku id puzzle_row_clash with
  | Ret c =>
      let out := ["Parsed Sudoku puzzle and initialized CSP.";
                  nl +:+ "Starting AC-3 algorithm..."] in
      let out' := out ++ [nl +:+ "AC-3 completed. Puzzle is not fully solved. Applying backtracking..."] in
      ((main id puzzle_row_clash = Ret (out ++ ["Sudoku puzzle has no solution."])
        ∨ main id puzzle_row_clash = Ret (out' ++ ["Sudoku puzzle has no solution."]))
       ∧ ∀ σ, ¬ is_solution σ c)
      ∨ ∃ d,
          (main id puzzle_row_clash
             = Ret (out ++ [nl +:+ "Sudoku puzzle is solved by AC-3."] ++ grid_of d)
           ∨ main id puzzle_row_clash
             = Ret (out' ++ [nl +:+ "Sudoku puzzle solved with backtracking:"] ++ grid_of d))
          ∧ is_solution (assignment_of d) c
  | Raise e => main id puzzle_row_clash = Raise e ∧ ∃ msg, e = ValueError msg
  | OutOfFuel => False
  end.
Proof. apply (main_correct id puzzle_row_clash). by intros l x. Defined.
